(** * Matching engine: orderbook storage, nonce provider, network and
      marketplace configuration

    A shallow embedding of

    - [OrderbookStorage] (orderbook storage v1): the key layout, the
      index-set derivation [_getOrderItemSets] and [save];
    - [NonceProvider]: [_checkSignal], [run], [getNonce],
      [_incrementNonce], [_saveNonce], [_loadNonce], [close];
    - [getNetworkConfig] of [src/config/index.ts];
    - the marketplace enablement table of
      [src/lib/match-executor/order/config.ts];
    - the HTTP routes of the matching engine ([register]).

    The key/value store is a single keyspace whose values are strings, sets
    or sorted sets; a command against a key of the wrong kind fails and
    leaves the store as it was, and a set or sorted set that loses its last
    member disappears with its key, as in Redis. *)

From stdpp Require Import gmap strings list fin_maps pretty.
From Stdlib Require Import ZArith QArith Ascii.

Open Scope string_scope.

(** ** Exceptions *)

(** A computation that either returns or throws [new Error(msg)]. *)
Inductive result (A : Type) : Type :=
| Ok (a : A)
| Throw (msg : string).
Arguments Ok {A} a.
Arguments Throw {A} msg.

(** [`${err}`] for an [Error] with message [msg]. *)
Definition show_error (msg : string) : string := "Error: " +:+ msg.

(** ** The logger ([src/common/logger]) *)

Module Logger.

Inductive level := lvl_info | lvl_error | lvl_warn.

Record entry := Entry { lvl : level; component : string; message : string }.

(** [logger.log] is [log('info')]. *)
Definition log (c m : string) (l : list entry) : list entry := l ++ [Entry lvl_info c m].
Definition error (c m : string) (l : list entry) : list entry := l ++ [Entry lvl_error c m].
Definition warn (c m : string) (l : list entry) : list entry := l ++ [Entry lvl_warn c m].

End Logger.

(** ** The key/value store *)

Module Redis.

(** A score is a number; only storing and reading back is modelled, so a
    rational stands for the floating point value. *)
Inductive value :=
| VString (s : string)
| VSet (members : gset string)
| VZSet (scores : gmap string Q).

Abbreviation db := (gmap string value).

Definition WRONGTYPE : string :=
  "WRONGTYPE Operation against a key holding the wrong kind of value".

(** The reply of one command: [None] when it succeeded, the error
    otherwise. *)
Abbreviation reply := (option string).

(** Commands queued on a [multi()] transaction. *)
Inductive command :=
| SADD (key member : string)
| ZADD (key : string) (score : Q) (member : string)
| SET (key val : string)
| SREM (key member : string)
| ZREM (key : string) (members : list string)
| DEL (keys : list string).

Definition put_set (key : string) (s : gset string) (d : db) : db :=
  if decide (s = ∅) then delete key d else <[key := VSet s]> d.

Definition put_zset (key : string) (z : gmap string Q) (d : db) : db :=
  if decide (z = ∅) then delete key d else <[key := VZSet z]> d.

Definition sadd (key member : string) (d : db) : db * reply :=
  match d !! key with
  | None => (<[key := VSet {[ member ]}]> d, None)
  | Some (VSet s) => (<[key := VSet ({[ member ]} ∪ s)]> d, None)
  | Some _ => (d, Some WRONGTYPE)
  end.

Definition zadd (key : string) (score : Q) (member : string) (d : db) : db * reply :=
  match d !! key with
  | None => (<[key := VZSet {[ member := score ]}]> d, None)
  | Some (VZSet z) => (<[key := VZSet (<[member := score]> z)]> d, None)
  | Some _ => (d, Some WRONGTYPE)
  end.

Definition set (key val : string) (d : db) : db * reply :=
  (<[key := VString val]> d, None).

Definition srem (key member : string) (d : db) : db * reply :=
  match d !! key with
  | None => (d, None)
  | Some (VSet s) => (put_set key (s ∖ {[ member ]}) d, None)
  | Some _ => (d, Some WRONGTYPE)
  end.

Definition zrem (key : string) (members : list string) (d : db) : db * reply :=
  match d !! key with
  | None => (d, None)
  | Some (VZSet z) => (put_zset key (foldr delete z members) d, None)
  | Some _ => (d, Some WRONGTYPE)
  end.

Definition del (keys : list string) (d : db) : db * reply :=
  (foldr delete d keys, None).

Definition run (c : command) (d : db) : db * reply :=
  match c with
  | SADD k m => sadd k m d
  | ZADD k sc m => zadd k sc m d
  | SET k v => set k v d
  | SREM k m => srem k m d
  | ZREM k ms => zrem k ms d
  | DEL ks => del ks d
  end.

(** [txn.exec()]: the queued commands run in order, each on the store
    the previous one left; a failing command does not stop the rest. *)
Fixpoint exec (txn : list command) (d : db) : db * list reply :=
  match txn with
  | [] => (d, [])
  | c :: txn' =>
      let '(d1, r) := run c d in
      let '(d2, rs) := exec txn' d1 in
      (d2, r :: rs)
  end.

(** Reads issued outside a transaction. *)
Definition smembers (key : string) (d : db) : result (list string) :=
  match d !! key with
  | None => Ok []
  | Some (VSet s) => Ok (elements s)
  | Some _ => Throw WRONGTYPE
  end.

Definition sismember (key member : string) (d : db) : result bool :=
  match d !! key with
  | None => Ok false
  | Some (VSet s) => Ok (bool_decide (member ∈ s))
  | Some _ => Throw WRONGTYPE
  end.

Definition zscore (key member : string) (d : db) : result (option Q) :=
  match d !! key with
  | None => Ok None
  | Some (VZSet z) => Ok (z !! member)
  | Some _ => Throw WRONGTYPE
  end.

Definition get (key : string) (d : db) : result (option string) :=
  match d !! key with
  | None => Ok None
  | Some (VString s) => Ok (Some s)
  | Some _ => Throw WRONGTYPE
  end.

Definition exists_ (key : string) (d : db) : bool := bool_decide (is_Some (d !! key)).





(** The keys a command may write. *)
Definition written (c : command) : list string :=
  match c with
  | SADD k _ | ZADD k _ _ | SET k _ | SREM k _ | ZREM k _ => [k]
  | DEL ks => ks
  end.

(** The commands that only take things away. *)
Definition removal (c : command) : Prop :=
  match c with
  | SREM _ _ | ZREM _ _ | DEL _ => True
  | _ => False
  end.

(** [shrinks d d']: every key of [d'] is a key of [d], with the same
    string, or with a set or sorted set that lost members. *)
Definition shrinks (d d' : db) : Prop :=
  ∀ k, match d' !! k with
       | None => True
       | Some (VString s) => d !! k = Some (VString s)
       | Some (VSet s') => ∃ s, d !! k = Some (VSet s) ∧ s' ⊆ s
       | Some (VZSet z') => ∃ z, d !! k = Some (VZSet z) ∧ z' ⊆ z
       end.

End Redis.

(** ** Orders *)

(** Modelled from the spec: the [Order] class ([./order]) and [OrderData]
    ([./types]) are imported by the storage and defined elsewhere.
    Following the data model, an order has a side, a complication, a
    currency, a start price and an order item that either names a single
    token of a collection or a whole collection; [getOrderItem] returns that
    item, and the item carries a [tokenId] exactly in the single-token case.
    The order a stored entry decodes to ([new Order(Order.getOrderParams(..))])
    is carried by the entry, and so is its JSON encoding. *)
Module OrderModel.

Inductive Side := buy | sell.

Definition side_string (s : Side) : string :=
  match s with buy => "buy" | sell => "sell" end.

Inductive OrderItem :=
| TokenItem (collection tokenId : string)
| CollectionItem (collection : string).

Definition item_collection (i : OrderItem) : string :=
  match i with TokenItem c _ => c | CollectionItem c => c end.

Record OrderParams := {
  side : Side;
  complication : string;
  currency : string;
  startPriceEth : Q
}.

Record Order := {
  id : string;
  params : OrderParams;
  getOrderItem : OrderItem
}.

Inductive OrderStatus := active | filled | cancelled | expired.

Definition status_string (s : OrderStatus) : string :=
  match s with
  | active => "active" | filled => "filled"
  | cancelled => "cancelled" | expired => "expired"
  end.

Record OrderData := {
  data_id : string;
  status : OrderStatus;
  order : OrderParams;
  order_item : OrderItem;
  stringify : string   (* JSON.stringify(item) *)
}.

(** [new Order(Order.getOrderParams(item.id, chainId, item.order))] *)
Definition new_Order (item : OrderData) : Order :=
  {| id := data_id item; params := order item; getOrderItem := order_item item |}.

End OrderModel.

(** ** Orderbook storage, v1 *)

Module OrderbookStorage.
Import OrderModel.

Definition version : string := "v1".

Record TokenConstraints := {
  t_complication : string;
  t_currency : string;
  t_collection : string;
  t_tokenId : string
}.

Record CollectionConstraints := {
  c_complication : string;
  c_currency : string;
  c_collection : string
}.

(** The store and what was logged. *)
Record state := State { store : Redis.db; logged : list Logger.entry }.

Section Storage.
(** [this._chainId] *)
Variable _chainId : string.

Definition getOrderMatchesSet (orderId : string) : string :=
  "orderbook:" +:+ version +:+ ":chain:" +:+ _chainId +:+ ":order-matches:" +:+ orderId.

Definition matchesByGasPriceOrderedSetKey : string :=
  "orderbook:" +:+ version +:+ ":chain:" +:+ _chainId +:+ ":order-matches:by-gas-price".

Definition getFullMatchKey (matchId : string) : string :=
  "orderbook:" +:+ version +:+ ":chain:" +:+ _chainId +:+ ":order-matches:" +:+ matchId +:+ ":full".

Definition storedOrdersSetKey : string :=
  "orderbook:" +:+ version +:+ ":chain:" +:+ _chainId +:+ ":orders".

Definition activeOrdersOrderedSetKey : string :=
  "orderbook:" +:+ version +:+ ":chain:" +:+ _chainId +:+ ":order-status:active".

Definition executedOrdersOrderedSetKey : string :=
  "orderbook:" +:+ version +:+ ":chain:" +:+ _chainId +:+ ":order-status:executed".

Definition getOrderId (o : Order) : string := id o.

Definition getFullOrderKey (id : string) : string :=
  "orderbook:" +:+ version +:+ ":chain:" +:+ _chainId +:+ ":orders:" +:+ id +:+ ":full".

(** The per-asset sets.  Each takes the currency among its constraints
    and none puts it in the key. *)
Definition getTokenListingsSet (constraints : TokenConstraints) : string :=
  let scope := "token-orders" in
  let side := "sell" in
  "scope:" +:+ scope +:+ ":complication:" +:+ t_complication constraints
    +:+ ":side:" +:+ side +:+ ":collection:" +:+ t_collection constraints
    +:+ ":tokenId:" +:+ t_tokenId constraints.

Definition getTokenOffersSet (constraints : TokenConstraints) : string :=
  let scope := "token-orders" in
  let side := "buy" in
  "scope:" +:+ scope +:+ ":complication:" +:+ t_complication constraints
    +:+ ":side:" +:+ side +:+ ":collection:" +:+ t_collection constraints
    +:+ ":tokenId:" +:+ t_tokenId constraints.

Definition getCollectionTokenListingsSet (constraints : CollectionConstraints) : string :=
  let scope := "collection-token-orders" in
  let side := "sell" in
  "scope:" +:+ scope +:+ ":complication:" +:+ c_complication constraints
    +:+ ":side:" +:+ side +:+ ":collection:" +:+ c_collection constraints.

Definition getCollectionTokenOffersSet (constraints : TokenConstraints) : string :=
  let scope := "collection-token-orders" in
  let side := "buy" in
  "scope:" +:+ scope +:+ ":complication:" +:+ t_complication constraints
    +:+ ":side:" +:+ side +:+ ":collection:" +:+ t_collection constraints.

Definition getCollectionWideOffersSet (constraints : CollectionConstraints) : string :=
  let scope := "collection-wide-orders" in
  let side := "buy" in
  "scope:" +:+ scope +:+ ":complication:" +:+ c_complication constraints
    +:+ ":side:" +:+ side +:+ ":collection:" +:+ c_collection constraints.

Definition has (orderId : string) (d : Redis.db) : result bool :=
  Redis.sismember storedOrdersSetKey orderId d.

(** The switch on [`${side}:${'tokenId' in orderItem ? 'token' : 'collection'}`]. *)
Definition _getOrderItemSets (o : Order) : result (list string * Q) :=
  let orderItem := getOrderItem o in
  let orderScore := startPriceEth (params o) in
  match side (params o), orderItem with
  | buy, TokenItem collection tokenId =>
      let tokenOffers := getTokenOffersSet
        {| t_complication := complication (params o);
           t_currency := currency (params o);
           t_collection := collection;
           t_tokenId := tokenId |} in
      let tokenCollectionOffers := getCollectionTokenOffersSet
        {| t_complication := complication (params o);
           t_currency := currency (params o);
           t_collection := collection;
           t_tokenId := tokenId |} in
      Ok ([tokenOffers; tokenCollectionOffers], orderScore)
  | buy, CollectionItem collection =>
      let collectionWideOffers := getCollectionWideOffersSet
        {| c_complication := complication (params o);
           c_currency := currency (params o);
           c_collection := collection |} in
      Ok ([collectionWideOffers], orderScore)
  | sell, TokenItem collection tokenId =>
      let tokenSells := getTokenListingsSet
        {| t_complication := complication (params o);
           t_currency := currency (params o);
           t_collection := collection;
           t_tokenId := tokenId |} in
      let tokenCollectionSells := getCollectionTokenListingsSet
        {| c_complication := complication (params o);
           c_currency := currency (params o);
           c_collection := collection |} in
      Ok ([tokenSells; tokenCollectionSells], orderScore)
  | sell, CollectionItem _ => Throw "Unsupported order side"
  end.

(** The commands [save] queues for an active entry. *)
Definition active_txn (item : OrderData) (sets : list string) (orderScore : Q)
  : list Redis.command :=
  [ Redis.SADD storedOrdersSetKey (data_id item);
    Redis.ZADD activeOrdersOrderedSetKey (-1) (data_id item);
    Redis.SET (getFullOrderKey (data_id item)) (stringify item) ]
  ++ map (fun set => Redis.ZADD set orderScore (data_id item)) sets.

(** The commands [save] queues for an entry that is not active, given
    the members [matches] it read from the entry's match set. *)
Definition inactive_txn (item : OrderData) (sets : list string) (matches : list string)
  : list Redis.command :=
  let orderMatchesSet := getOrderMatchesSet (data_id item) in
  [ Redis.SREM storedOrdersSetKey (data_id item);
    Redis.ZREM activeOrdersOrderedSetKey [data_id item];
    Redis.DEL [getFullOrderKey (data_id item)] ]
  ++ map (fun set => Redis.ZREM set [data_id item]) sets
  ++ (if (0 <? length matches)%nat then
        [ Redis.DEL (map getFullMatchKey matches);
          Redis.ZREM matchesByGasPriceOrderedSetKey matches ]
        ++ map (fun match_ => Redis.SREM (getOrderMatchesSet match_) (data_id item)) matches
      else [])
  ++ [ Redis.DEL [orderMatchesSet] ].

(** The loop over the replies of [exec]: one error line per failed
    command. *)
Definition log_replies (item : OrderData) (results : list Redis.reply)
    (l : list Logger.entry) : list Logger.entry :=
  fold_left (fun l r =>
    match r with
    | Some err =>
        Logger.error "orderbook-storage"
          ("Failed to save order " +:+ data_id item +:+ " - "
             +:+ status_string (status item) +:+ " ReplyError: " +:+ err) l
    | None => l
    end) results l.

(** The [catch] block. *)
Definition save_failed (item : OrderData) (err : string) (l : list Logger.entry)
  : list Logger.entry :=
  Logger.error "orderbook-storage"
    ("Failed to save order event " +:+ data_id item +:+ " - "
       +:+ status_string (status item) +:+ " " +:+ err) l.

Definition commit (item : OrderData) (txn : list Redis.command) (st : state) : state :=
  let '(d, results) := Redis.exec txn (store st) in
  State d (Logger.log "orderbook-storage" ("Handled order " +:+ data_id item)
             (log_replies item results (logged st))).

(** The body of the loop of [save], with its [try]/[catch]. *)
Definition save_item (item : OrderData) (st : state) : state :=
  let order := new_Order item in
  match _getOrderItemSets order with
  | Throw msg => State (store st) (save_failed item (show_error msg) (logged st))
  | Ok (sets, orderScore) =>
      match status item with
      | active =>
          let st1 := State (store st)
            (Logger.log "orderbook-storage"
               ("Adding order " +:+ data_id item +:+ " to active orders") (logged st)) in
          commit item (active_txn item sets orderScore) st1
      | _ =>
          let st1 := State (store st)
            (Logger.log "orderbook-storage"
               ("Removing order " +:+ data_id item +:+ " from active orders") (logged st)) in
          match Redis.smembers (getOrderMatchesSet (data_id item)) (store st1) with
          | Throw err =>
              State (store st1) (save_failed item ("ReplyError: " +:+ err) (logged st1))
          | Ok matches =>
              let st2 :=
                if (0 <? length matches)%nat then
                  State (store st1)
                    (Logger.log "orderbook-storage"
                       ("Removing matches: "
                          +:+ String.concat (", " +:+ String (Ascii.ascii_of_nat 10) "") matches
                          +:+ " for order " +:+ data_id item) (logged st1))
                else st1 in
              commit item (inactive_txn item sets matches) st2
          end
      end
  end.

(** [save(_items)], on the array of entries. *)
Definition save (items : list OrderData) (st : state) : state :=
  fold_left (fun st item => save_item item st) items st.

End Storage.

(** The per-asset keys live outside the [orderbook:] namespace. *)
Definition scoped (k : string) : Prop := ∃ rest, k = "scope:" +:+ rest.


Definition with_currency (ccy : string) (o : Order) : Order :=
  {| id := id o;
     params := {| side := side (params o); complication := complication (params o);
                  currency := ccy; startPriceEth := startPriceEth (params o) |};
     getOrderItem := getOrderItem o |}.

End OrderbookStorage.

(** ** Persisting a match *)

Module MatchingEngine.
Import OrderbookStorage.

(** Modelled from the spec: the matching engine, which writes the match
    entries [save] later cleans up, is defined elsewhere.
    Section 4.2, step 5: "add match id to both orders'
    [order-matches:{id}] sets; store the full match under
    [order-matches:{matchId}:full]; add match id to the global
    [matches-by-gas-price] sorted set scored by maxGasPriceEth". *)
Definition persist_match (chain matchId a b fullMatch : string) (maxGasPriceEth : Q)
  : list Redis.command :=
  [ Redis.SADD (getOrderMatchesSet chain a) matchId;
    Redis.SADD (getOrderMatchesSet chain b) matchId;
    Redis.SET (getFullMatchKey chain matchId) fullMatch;
    Redis.ZADD (matchesByGasPriceOrderedSetKey chain) maxGasPriceEth matchId ].

End MatchingEngine.

(** ** Sample orders

    The first end-to-end scenario of the design: a listing and an offer
    for token 1 of collection 0x1 at 0.1, in the same currency and
    complication; and the same offer made in another currency. *)

Module Scenario.
Import OrderModel OrderbookStorage.

Definition chain : string := "1".

Definition order_params (s : Side) (ccy : string) : OrderParams :=
  {| side := s; complication := "0xc"; currency := ccy; startPriceEth := 1 # 10 |}.

Definition listing (st : OrderStatus) : OrderData :=
  {| data_id := "0xa"; status := st; order := order_params sell "0xweth";
     order_item := TokenItem "0x1" "1"; stringify := "{listing}" |}.

Definition offer (st : OrderStatus) : OrderData :=
  {| data_id := "0xb"; status := st; order := order_params buy "0xweth";
     order_item := TokenItem "0x1" "1"; stringify := "{offer}" |}.

Definition offer_usdc : OrderData :=
  {| data_id := "0xd"; status := active; order := order_params buy "0xusdc";
     order_item := TokenItem "0x1" "1"; stringify := "{offer in usdc}" |}.

Definition collection_listing (st : OrderStatus) : OrderData :=
  {| data_id := "0xe"; status := st; order := order_params sell "0xweth";
     order_item := CollectionItem "0x1"; stringify := "{collection listing}" |}.

Definition empty : state := State ∅ [].

Definition token_offers : string :=
  "scope:token-orders:complication:0xc:side:buy:collection:0x1:tokenId:1".
Definition collection_token_offers : string :=
  "scope:collection-token-orders:complication:0xc:side:buy:collection:0x1".
Definition token_listings : string :=
  "scope:token-orders:complication:0xc:side:sell:collection:0x1:tokenId:1".
Definition collection_token_listings : string :=
  "scope:collection-token-orders:complication:0xc:side:sell:collection:0x1".

(** Both orders saved and matched, the match "0xm" persisted. *)
Definition matched : state :=
  let st := save chain [listing active; offer active] empty in
  State (Redis.exec (MatchingEngine.persist_match chain "0xm" "0xa" "0xb" "{match}" 0)
           (store st)).1 (logged st).

End Scenario.

(** ** The nonce provider *)

Module NonceProvider.
Local Open Scope Z_scope.

(** [this._nonceLoaded]: the promise [_loadNonce()] returned. *)
Inductive Promise := pending | fulfilled | rejected (err : string).

(** The document at [matchExecutors/{account}/nonces/{exchange}].  The
    nonce is kept as the integer whose decimal string the document holds
    ([toString] on write, [BigNumber.from] on read).  A write with
    [merge] on a missing document leaves the other fields absent. *)
Record NonceProviderDoc := {
  chainId : option string;
  matchExecutorAddress : option string;
  exchangeAddress : option string;
  nonce : Z;
  updatedAt : Z;
  createdAt : option Z
}.

Record state := {
  _chainId : string;
  _accountAddress : string;
  _exchangeAddress : string;
  _saveDelay : Z;
  _nonceLoaded : option Promise;
  _nonce : option Z;
  (** [Some a]: the signal of the lease, with [a] its [aborted] flag *)
  _signal : option bool;
  _pendingSave : bool;
  (** whether [this._close] is set *)
  _close : bool;
  _closed : bool;
  (** the document behind [this._ref] *)
  _ref : option NonceProviderDoc;
  logged : list Logger.entry
}.

Definition set_nonceLoaded (p : option Promise) (st : state) : state :=
  {| _chainId := _chainId st; _accountAddress := _accountAddress st;
     _exchangeAddress := _exchangeAddress st; _saveDelay := _saveDelay st;
     _nonceLoaded := p; _nonce := _nonce st; _signal := _signal st;
     _pendingSave := _pendingSave st; _close := _close st; _closed := _closed st;
     _ref := _ref st; logged := logged st |}.

Definition set_nonce (n : option Z) (st : state) : state :=
  {| _chainId := _chainId st; _accountAddress := _accountAddress st;
     _exchangeAddress := _exchangeAddress st; _saveDelay := _saveDelay st;
     _nonceLoaded := _nonceLoaded st; _nonce := n; _signal := _signal st;
     _pendingSave := _pendingSave st; _close := _close st; _closed := _closed st;
     _ref := _ref st; logged := logged st |}.

Definition set_signal (s : option bool) (st : state) : state :=
  {| _chainId := _chainId st; _accountAddress := _accountAddress st;
     _exchangeAddress := _exchangeAddress st; _saveDelay := _saveDelay st;
     _nonceLoaded := _nonceLoaded st; _nonce := _nonce st; _signal := s;
     _pendingSave := _pendingSave st; _close := _close st; _closed := _closed st;
     _ref := _ref st; logged := logged st |}.

Definition set_pendingSave (b : bool) (st : state) : state :=
  {| _chainId := _chainId st; _accountAddress := _accountAddress st;
     _exchangeAddress := _exchangeAddress st; _saveDelay := _saveDelay st;
     _nonceLoaded := _nonceLoaded st; _nonce := _nonce st; _signal := _signal st;
     _pendingSave := b; _close := _close st; _closed := _closed st;
     _ref := _ref st; logged := logged st |}.

Definition set_close (b : bool) (st : state) : state :=
  {| _chainId := _chainId st; _accountAddress := _accountAddress st;
     _exchangeAddress := _exchangeAddress st; _saveDelay := _saveDelay st;
     _nonceLoaded := _nonceLoaded st; _nonce := _nonce st; _signal := _signal st;
     _pendingSave := _pendingSave st; _close := b; _closed := _closed st;
     _ref := _ref st; logged := logged st |}.

Definition set_closed (b : bool) (st : state) : state :=
  {| _chainId := _chainId st; _accountAddress := _accountAddress st;
     _exchangeAddress := _exchangeAddress st; _saveDelay := _saveDelay st;
     _nonceLoaded := _nonceLoaded st; _nonce := _nonce st; _signal := _signal st;
     _pendingSave := _pendingSave st; _close := _close st; _closed := b;
     _ref := _ref st; logged := logged st |}.

Definition set_ref (d : option NonceProviderDoc) (st : state) : state :=
  {| _chainId := _chainId st; _accountAddress := _accountAddress st;
     _exchangeAddress := _exchangeAddress st; _saveDelay := _saveDelay st;
     _nonceLoaded := _nonceLoaded st; _nonce := _nonce st; _signal := _signal st;
     _pendingSave := _pendingSave st; _close := _close st; _closed := _closed st;
     _ref := d; logged := logged st |}.

Definition add_log (f : list Logger.entry -> list Logger.entry) (st : state) : state :=
  {| _chainId := _chainId st; _accountAddress := _accountAddress st;
     _exchangeAddress := _exchangeAddress st; _saveDelay := _saveDelay st;
     _nonceLoaded := _nonceLoaded st; _nonce := _nonce st; _signal := _signal st;
     _pendingSave := _pendingSave st; _close := _close st; _closed := _closed st;
     _ref := _ref st; logged := f (logged st) |}.

Definition log (m : string) := add_log (Logger.log "nonce-provider" m).
Definition error (m : string) := add_log (Logger.error "nonce-provider" m).
Definition warn (m : string) := add_log (Logger.warn "nonce-provider" m).

(** The constructor; [doc] is what the document store holds for this
    account and exchange.  [saveDelay] defaults to 100. *)
Definition new_NonceProvider (chain account exchange : string) (saveDelay : Z)
    (doc : option NonceProviderDoc) : state :=
  {| _chainId := chain; _accountAddress := account; _exchangeAddress := exchange;
     _saveDelay := saveDelay;
     _nonceLoaded := None; _nonce := None; _signal := None;
     _pendingSave := false; _close := false; _closed := false;
     _ref := doc; logged := [] |}.

Definition default_saveDelay : Z := 100.

Definition _checkSignal (st : state) : result unit :=
  match _signal st with
  | None | Some true => Throw "Nonce provider lock expired"
  | Some false =>
      if _closed st then Throw "Nonce provider closed" else Ok tt
  end.

(** [this._close()], as [run] defines it. *)
Definition do_close (st : state) : state :=
  set_closed true
    (log ("Closing nonce provider for account: " +:+ _accountAddress st) st).

Definition close (st : state) : state :=
  if _close st && negb (_closed st) then do_close st else st.

(** [_loadNonce], given the watermark [minNonce] the exchange returned
    for [userMinOrderNonce] and the clock. *)
Definition _loadNonce (minNonce now : Z) (st : state) : state :=
  let snap := _ref st in
  let '(st1, data) :=
    match snap with
    | Some data => (st, data)
    | None =>
        let initial :=
          {| chainId := Some (_chainId st);
             matchExecutorAddress := Some (_accountAddress st);
             exchangeAddress := Some (_exchangeAddress st);
             nonce := minNonce;
             updatedAt := now;
             createdAt := Some now |} in
        (set_ref (Some initial) st, initial)
    end in
  let nonce := if (minNonce >? nonce data)%Z then minNonce else nonce data in
  set_nonce (Some nonce) st1.

(** [run], in the two steps the event loop gives it.  First the lock:
    either [redlock.using] fails to acquire it (an [ExecutionError],
    answered by a warning) or the routine starts, calls [_loadNonce()],
    keeps its promise and the signal. *)
Definition run_lock (acquired : bool) (st : state) : state :=
  if acquired then
    set_signal (Some false)
      (set_nonceLoaded (Some pending)
         (log ("Acquired nonce lock for account: " +:+ _accountAddress st
                 +:+ " exchange: " +:+ _exchangeAddress st) st))
  else
    warn ("Failed to acquire lock, another instance is running for account: "
            +:+ _accountAddress st +:+ " exchange: " +:+ _exchangeAddress st) st.

(** Then the promise settles: with the watermark, and the routine goes on
    to install [_close]; or with an error of the document store or of the
    chain. *)
Inductive load_result := loaded (minNonce now : Z) | load_failed (err : string).

Definition run_loaded (r : load_result) (st : state) : state :=
  match r with
  | loaded minNonce now =>
      set_close true (set_nonceLoaded (Some fulfilled) (_loadNonce minNonce now st))
  | load_failed err => set_nonceLoaded (Some (rejected err)) st
  end.

(** [_saveNonce]: arms the timer unless one is pending. *)
Definition _saveNonce (st : state) : state :=
  if _pendingSave st then st else set_pendingSave true st.

Definition _incrementNonce (st : state) : result Z * state :=
  match _nonce st with
  | None => (Throw "Nonce provider not running", st)
  | Some n =>
      let st1 := set_nonce (Some (n + 1)%Z) st in
      let st2 := _saveNonce st1 in
      (match _nonce st2 with
       | Some n' => Ok n'
       | None => Throw "Nonce provider not running"
       end, st2)
  end.

(** What a call of [getNonce] comes to: a nonce, an exception, or a wait
    on a load that has not settled. *)
Inductive outcome := Returned (n : Z) | Threw (msg : string) | Waiting.

(** [getNonce] up to its [await]: the checks. *)
Definition getNonce_enter (st : state) : result unit :=
  match _checkSignal st with
  | Throw msg => Throw msg
  | Ok _ =>
      match _nonceLoaded st with
      | None => Throw "Nonce provider not running"
      | Some _ => Ok tt
      end
  end.

(** [getNonce] from its [await] on: it goes on when the promise has
    settled, and does not look at the signal again. *)
Definition getNonce_resume (st : state) : outcome * state :=
  match _nonceLoaded st with
  | Some fulfilled =>
      match _incrementNonce st with
      | (Ok n, st') => (Returned n, st')
      | (Throw msg, st') => (Threw msg, st')
      end
  | Some (rejected err) => (Threw err, st)
  | Some pending | None => (Waiting, st)
  end.

(** A call of [getNonce] that nothing interleaves with. *)
Definition getNonce (st : state) : outcome * state :=
  match getNonce_enter st with
  | Throw msg => (Threw msg, st)
  | Ok _ => getNonce_resume st
  end.

(** What the callback of the save timer asks the document store for:
    [_ref.set({ nonce, updatedAt }, { merge: true })]. *)
Record Write := { write_nonce : Z; write_updatedAt : Z }.

(** The callback of the timer [_saveNonce] armed, up to its [await]: it
    clears [_pendingSave], reads the nonce, checks the signal and asks
    for the write; an exception before the [await] is logged. *)
Definition save_timer (now : Z) (st : state) : state * option Write :=
  let st := set_pendingSave false st in
  let nonce := _nonce st in
  let shown := match nonce with Some n => pretty n | None => "undefined" end in
  match _checkSignal st with
  | Throw msg =>
      (error ("Failed to save nonce: " +:+ shown +:+ " Error: " +:+ show_error msg) st,
       None)
  | Ok _ =>
      match nonce with
      | None =>
          (error ("Failed to save nonce: " +:+ shown +:+ " Error: "
                    +:+ show_error "Nonce not loaded") st, None)
      | Some n => (st, Some {| write_nonce := n; write_updatedAt := now |})
      end
  end.

(** A write with [merge]: the fields it names are set, the others are
    kept, and are absent when there was no document. *)
Definition merge (w : Write) (doc : option NonceProviderDoc) : NonceProviderDoc :=
  match doc with
  | Some d =>
      {| chainId := chainId d;
         matchExecutorAddress := matchExecutorAddress d;
         exchangeAddress := exchangeAddress d;
         nonce := write_nonce w; updatedAt := write_updatedAt w;
         createdAt := createdAt d |}
  | None =>
      {| chainId := None; matchExecutorAddress := None;
         exchangeAddress := None;
         nonce := write_nonce w; updatedAt := write_updatedAt w;
         createdAt := None |}
  end.

(** The callback from its [await] on, when the document store settles
    the write: [write] is [None] when the store accepted it, and then
    the document is what it was at that moment with the write merged in;
    it is the error otherwise, which is logged with the nonce the
    callback had read.  The signal is not looked at again. *)
Definition save_settles (w : Write) (write : option string) (st : state) : state :=
  match write with
  | None => set_ref (Some (merge w (_ref st))) st
  | Some err =>
      error ("Failed to save nonce: " +:+ pretty (write_nonce w) +:+ " Error: " +:+ err) st
  end.

(** Loss of the lease: the lock could not be extended and the signal is
    aborted. *)
Definition lease_lost (st : state) : state :=
  match _signal st with
  | Some _ => set_signal (Some true) st
  | None => st
  end.

(** The provider, the calls of [getNonce] that are waiting at their
    [await], and the writes of the save timer the document store has not
    settled yet, in the order they were asked for. *)
Record runtime := { this : state; awaiting : nat; writing : list Write }.

Definition on_this (f : state -> state) (rt : runtime) : runtime :=
  {| this := f (this rt); awaiting := awaiting rt; writing := writing rt |}.

(** What can happen to a provider from the moment [run] holds the lock:
    a call of [getNonce] reaches its [await]; a waiting call goes on; the
    load settles; the save timer fires; the document store settles one of
    the writes in flight, whichever; the signal is aborted; [close] is
    called. *)
Inductive event :=
| call_getNonce
| resume_getNonce
| load_settles (r : load_result)
| timer_fires (now : Z)
| write_settles (k : nat) (write : option string)
| signal_aborted
| call_close.

Definition step (e : event) (rt : runtime) : option outcome * runtime :=
  match e with
  | call_getNonce =>
      match getNonce_enter (this rt) with
      | Throw msg => (Some (Threw msg), rt)
      | Ok _ =>
          (None, {| this := this rt; awaiting := S (awaiting rt);
                    writing := writing rt |})
      end
  | resume_getNonce =>
      match awaiting rt with
      | O => (None, rt)
      | S k =>
          match getNonce_resume (this rt) with
          | (Waiting, _) => (None, rt)
          | (o, st') =>
              (Some o, {| this := st'; awaiting := k; writing := writing rt |})
          end
      end
  | load_settles r =>
      match _nonceLoaded (this rt) with
      | Some pending => (None, on_this (run_loaded r) rt)
      | _ => (None, rt)
      end
  | timer_fires now =>
      if _pendingSave (this rt) then
        let '(st', w) := save_timer now (this rt) in
        (None, {| this := st'; awaiting := awaiting rt;
                  writing := writing rt ++ option_list w |})
      else (None, rt)
  | write_settles k write =>
      match writing rt !! k with
      | Some w =>
          (None, {| this := save_settles w write (this rt); awaiting := awaiting rt;
                    writing := delete k (writing rt) |})
      | None => (None, rt)
      end
  | signal_aborted => (None, on_this lease_lost rt)
  | call_close => (None, on_this close rt)
  end.

(** The nonces handed out along a run of events, in order. *)
Fixpoint allocated (es : list event) (rt : runtime) : list Z :=
  match es with
  | [] => []
  | e :: es' =>
      match step e rt with
      | (Some (Returned n), rt') => n :: allocated es' rt'
      | (_, rt') => allocated es' rt'
      end
  end.

Fixpoint run_events (es : list event) (rt : runtime) : runtime :=
  match es with
  | [] => rt
  | e :: es' => run_events es' (step e rt).2
  end.

(** Without a live lease: the signal is unset or aborted, or the
    provider is closed. *)
Definition no_lease (st : state) : Prop :=
  _signal st ≠ Some false ∨ _closed st = true.

(** The message [_checkSignal] then throws. *)
Definition rejection (st : state) : string :=
  if decide (_signal st = Some false) then "Nonce provider closed"
  else "Nonce provider lock expired".

(** A provider whose document holds the nonce 5; the provider once [run]
    holds the lock; and once the nonce is loaded, with a watermark of 3. *)
Definition fresh : state :=
  new_NonceProvider "1" "0xacc" "0xexch" default_saveDelay
    (Some {| chainId := Some "1"; matchExecutorAddress := Some "0xacc";
             exchangeAddress := Some "0xexch";
             nonce := 5; updatedAt := 900; createdAt := Some 800 |}).

Definition acquiring : state := run_lock true fresh.

Definition running : state := run_loaded (loaded 3 1000) acquiring.

Definition idle (st : state) : runtime :=
  {| this := st; awaiting := 0; writing := [] |}.

End NonceProvider.

(** ** Network configuration ([src/config/index.ts]) *)

Module Config.

(** [process.env] *)
Abbreviation env := (gmap string string).

Definition getEnvVariable (e : env) (key : string) (required : bool) : result string :=
  match e !! key with
  | Some v => Ok v
  | None =>
      if required then Throw ("Missing required environment variable " +:+ key)
      else Ok ""
  end.

Inductive Mode := dev | prod.

Definition getMode (e : env) : result Mode :=
  match getEnvVariable e "INFINITY_NODE_ENV" true with
  | Throw msg => Throw msg
  | Ok v =>
      if decide (v = "") then Ok prod
      else if decide (v = "dev") then Ok dev
      else if decide (v = "prod") then Ok prod
      else Throw ("Invalid env mode " +:+ v)
  end.

(** [ChainId.Mainnet] and the relays. *)
Definition Mainnet : string := "1".
Definition DEFAULT_FLASHBOTS_RELAY : string := "https://relay.flashbots.net".
Definition goerli_relay : string := "https://relay-goerli.flashbots.net/".

(** [s.includes(sub)] *)
Definition includes (sub s : string) : bool :=
  match String.index 0 sub s with Some _ => true | None => false end.

(** The objects the configuration is made of, as what they are built
    from. *)
Record Wallet := { privateKey : string }.
Record JsonRpcProvider := { http_url : string; http_network : string }.
Record WebSocketProvider := { ws_url : string; ws_network : string }.
Record FlashbotsBundleProvider := {
  fb_provider : JsonRpcProvider;
  fb_authSigner : Wallet;
  fb_relay : string
}.

(** The only broadcaster the configuration ever constructs. *)
Inductive Broadcaster :=
| ForkedNetworkBroadcaster (chainId : string) (wallet : Wallet) (provider : JsonRpcProvider).

Record Flashbots := { blockOffset : Z; provider : FlashbotsBundleProvider }.

Record NetworkConfig := {
  chainId : string;
  isForkingEnabled : bool;
  isFlashbotsEnabled : bool;
  initiator : Wallet;
  matchExecutorAddress : string;
  exchangeAddress : string;
  flashbots : option Flashbots;
  httpProvider : JsonRpcProvider;
  websocketProvider : WebSocketProvider;
  broadcaster : Broadcaster
}.

(** The two ways of delivering a transaction (section 4.5 of the
    design): through a JSON-RPC endpoint, or as a bundle to a private
    relay. *)
Inductive Variant := ForkedDirect | PrivateRelayBundle.

Definition variant (b : Broadcaster) : Variant :=
  match b with ForkedNetworkBroadcaster _ _ _ => ForkedDirect end.

(** The calls [getNetworkConfig] makes into [ethers],
    [@infinityxyz/lib] and [@flashbots/ethers-provider-bundle].  Each of
    them can throw, or reject, whatever the environment holds: a
    constructor is given by the error it throws, if any, and a call that
    returns something by its result. *)
Record Libraries := {
  (** [new ethers.Wallet(key)] *)
  Wallet_error : string → option string;
  (** [new ethers.providers.JsonRpcProvider(url, chainIdInt)] *)
  JsonRpcProvider_error : string → string → option string;
  (** [new ethers.providers.WebSocketProvider(url, chainIdInt)] *)
  WebSocketProvider_error : string → string → option string;
  (** [getExchangeAddress(chainId)] *)
  getExchangeAddress : string → result string;
  (** [await httpProvider.getBalance(initiator.address)] *)
  getBalance : JsonRpcProvider → Wallet → result Z;
  (** [await FlashbotsBundleProvider.create(httpProvider, authSigner, relayUrl)] *)
  FlashbotsBundleProvider_error : JsonRpcProvider → Wallet → string → option string
}.

(** [new C(...)]: the object, unless the constructor throws. *)
Definition construct {A : Type} (err : option string) (a : A) : result A :=
  match err with
  | Some msg => Throw msg
  | None => Ok a
  end.

(** A statement that throws ends the function. *)
#[global] Instance result_bind : MBind result :=
  λ A B f r, match r with Ok a => f a | Throw msg => Throw msg end.

Section GetNetworkConfig.
(** [isForkingEnabled], read once from [ENABLE_FORKING] when the
    module loads, and the libraries. *)
Variable forking : bool.
Variable lib : Libraries.

Definition getNetworkConfig (e : env) (chain : string)
  : result (NetworkConfig * list Logger.entry) :=
  websocketUrl ← getEnvVariable e "WEBSOCKET_PROVIDER_URL" true;
  httpUrl ← getEnvVariable e "HTTP_PROVIDER_URL" true;
  httpProvider_ ← construct (JsonRpcProvider_error lib httpUrl chain)
                     {| http_url := httpUrl; http_network := chain |};
  websocketProvider_ ← construct (WebSocketProvider_error lib websocketUrl chain)
                          {| ws_url := websocketUrl; ws_network := chain |};
  exchangeAddress_ ← getExchangeAddress lib chain;
  initiatorKey ← getEnvVariable e "INITIATOR_KEY" true;
  initiator_ ← construct (Wallet_error lib initiatorKey) {| privateKey := initiatorKey |};
  matchExecutorAddress_ ← getEnvVariable e "MATCH_EXECUTOR_ADDRESS" true;
  if forking then
    if negb (includes "127.0.0.1" httpUrl) then
      Throw "HTTP_PROVIDER_URL must be localhost to use forking"
    else
      initiatorBalance ← getBalance lib httpProvider_ initiator_;
      let l :=
        if (initiatorBalance =? 0)%Z then
          Logger.error "config" "Initiator balance is 0, please fund the account" []
        else [] in
      Ok ({| chainId := chain;
             isForkingEnabled := true;
             isFlashbotsEnabled := false;
             initiator := initiator_;
             matchExecutorAddress := matchExecutorAddress_;
             exchangeAddress := exchangeAddress_;
             flashbots := None;
             websocketProvider := websocketProvider_;
             httpProvider := httpProvider_;
             broadcaster := ForkedNetworkBroadcaster chain initiator_ httpProvider_ |}, l)
  else
    authKey ← getEnvVariable e "FLASHBOTS_AUTH_SIGNER_KEY" true;
    authSigner ← construct (Wallet_error lib authKey) {| privateKey := authKey |};
    let relayUrl :=
      if decide (chain = Mainnet) then DEFAULT_FLASHBOTS_RELAY else goerli_relay in
    flashbotsProvider ←
      construct (FlashbotsBundleProvider_error lib httpProvider_ authSigner relayUrl)
        {| fb_provider := httpProvider_; fb_authSigner := authSigner;
           fb_relay := relayUrl |};
    Ok ({| chainId := chain;
           isForkingEnabled := false;
           isFlashbotsEnabled := true;
           initiator := initiator_;
           matchExecutorAddress := matchExecutorAddress_;
           exchangeAddress := exchangeAddress_;
           flashbots := Some {| blockOffset := 2; provider := flashbotsProvider |};
           httpProvider := httpProvider_;
           websocketProvider := websocketProvider_;
           (* TODO add flashbots *)
           broadcaster := ForkedNetworkBroadcaster chain initiator_ httpProvider_ |}, []).

End GetNetworkConfig.

(** Libraries for the examples.  The wallet takes a key of 32 bytes in
    hex and throws "invalid private key" on any other text; every other
    call goes through, the exchange is at "0xexchange" and the node
    reports [balance] for every account. *)
Definition hex_digit (c : Ascii.ascii) : bool :=
  let n := Ascii.nat_of_ascii c in
  ((48 <=? n) && (n <=? 57) || (97 <=? n) && (n <=? 102) || (65 <=? n) && (n <=? 70))%nat.

Fixpoint hex_digits (s : string) : bool :=
  match s with
  | EmptyString => true
  | String c s' => hex_digit c && hex_digits s'
  end.

Definition key32 (k : string) : bool :=
  match k with
  | String "0" (String "x" digits) => (String.length digits =? 64)%nat && hex_digits digits
  | _ => false
  end.

Definition answering (balance : Z) : Libraries :=
  {| Wallet_error := λ k, if key32 k then None else Some "invalid private key";
     JsonRpcProvider_error := λ _ _, None;
     WebSocketProvider_error := λ _ _, None;
     getExchangeAddress := λ _, Ok "0xexchange";
     getBalance := λ _ _, Ok balance;
     FlashbotsBundleProvider_error := λ _ _ _, None |}.

Definition key_1 : string :=
  "0x0000000000000000000000000000000000000000000000000000000000000001".
Definition key_2 : string :=
  "0x0000000000000000000000000000000000000000000000000000000000000002".

(** An environment of the production path: forking is off and every
    required variable is set. *)
Definition production_env : env :=
  list_to_map [
    ("WEBSOCKET_PROVIDER_URL", "wss://node.example/ws");
    ("HTTP_PROVIDER_URL", "https://node.example/rpc");
    ("INITIATOR_KEY", key_1);
    ("MATCH_EXECUTOR_ADDRESS", "0xexec");
    ("FLASHBOTS_AUTH_SIGNER_KEY", key_2) ].

End Config.

(** ** The marketplace enablement table
       ([src/lib/match-executor/order/config.ts]) *)

Module OrderConfig.

Inductive Builder := Seaport_Builders_SingleToken.

Record KindConfig := { kind_enabled : bool; builder : option Builder }.

Record SourceConfig := {
  source : string;
  enabled : bool;
  kinds : option (gmap string KindConfig)
}.

Definition infinityConfig : gmap string KindConfig :=
  list_to_map [
    ("single-token", {| kind_enabled := false; builder := None |});
    ("contract-wide", {| kind_enabled := false; builder := None |});
    ("complex", {| kind_enabled := false; builder := None |}) ].

Definition seaportConfig : gmap string KindConfig :=
  list_to_map [
    ("single-token", {| kind_enabled := true; builder := Some Seaport_Builders_SingleToken |});
    ("bundle-ask", {| kind_enabled := false; builder := None |});
    ("contract-wide", {| kind_enabled := false; builder := None |});
    ("token-list", {| kind_enabled := false; builder := None |}) ].

Definition disabled (name : string) : string * SourceConfig :=
  (name, {| source := name; enabled := false; kinds := None |}).

Definition entries : list (string * SourceConfig) := [
    ("infinity", {| source := "infinity"; enabled := true; kinds := Some infinityConfig |});
    ("seaport", {| source := "seaport"; enabled := true; kinds := Some seaportConfig |});
    disabled "wyvern-v2";
    disabled "wyvern-v2.3";
    disabled "looks-rare";
    disabled "zeroex-v4-erc721";
    disabled "zeroex-v4-erc1155";
    disabled "foundation";
    disabled "x2y2";
    disabled "rarible";
    disabled "element-erc721";
    disabled "element-erc1155";
    disabled "quixotic";
    disabled "nouns";
    disabled "zora-v3";
    disabled "mint";
    disabled "cryptopunks";
    disabled "sudoswap";
    disabled "universe";
    disabled "nftx";
    disabled "blur";
    disabled "forward" ].

Definition config : gmap string SourceConfig := list_to_map entries.

(** What the table says of a (marketplace, kind) pair. *)
Definition kind_of (marketplace kind : string) : option KindConfig :=
  sc ← config !! marketplace; ks ← kinds sc; ks !! kind.

(** A pair is enabled with a builder when its entry says [enabled: true]
    and names a builder. *)
Definition enabled_with_builder (marketplace kind : string) : bool :=
  match kind_of marketplace kind with
  | Some kc => kind_enabled kc && bool_decide (is_Some (builder kc))
  | None => false
  end.

(** The marketplaces the table recognizes. *)
Definition marketplaces : list string := entries.*1.

End OrderConfig.

(** ** The store, key by key *)

Module Slot.
Import Redis.

Definition keep_set (s : gset string) : option value :=
  if decide (s = ∅) then None else Some (VSet s).

Definition keep_zset (z : gmap string Q) : option value :=
  if decide (z = ∅) then None else Some (VZSet z).

(** What a command makes of the value under a key it names. *)
Definition act (c : command) (v : option value) : option value :=
  match c, v with
  | SADD _ m, None => Some (VSet {[ m ]})
  | SADD _ m, Some (VSet s) => Some (VSet ({[ m ]} ∪ s))
  | ZADD _ sc m, None => Some (VZSet {[ m := sc ]})
  | ZADD _ sc m, Some (VZSet z) => Some (VZSet (<[m := sc]> z))
  | SET _ x, _ => Some (VString x)
  | SREM _ m, Some (VSet s) => keep_set (s ∖ {[ m ]})
  | ZREM _ ms, Some (VZSet z) => keep_zset (foldr delete z ms)
  | DEL _, _ => None
  | _, v => v
  end.

(** What a command makes of the value under any key. *)
Definition slot (c : command) (k : string) (v : option value) : option value :=
  if decide (k ∈ written c) then act c v else v.

(** A transaction, seen from one key. *)
Definition slots (txn : list command) (k : string) (v : option value) : option value :=
  foldl (fun v c => slot c k v) v txn.

(** No key of the store holds an empty set or sorted set: the store drops
    a key with its last member. *)
Definition canonical (d : db) : Prop :=
  ∀ k, d !! k ≠ Some (VSet ∅) ∧ d !! k ≠ Some (VZSet ∅).

(** A transaction in which the commands that write one key are all the
    same command. *)
Definition key_functional (txn : list command) : Prop :=
  ∀ c c' k, c ∈ txn → c' ∈ txn → k ∈ written c → k ∈ written c' → c = c'.

(** A value that a removal leaves as it is. *)
Definition settled (c : command) (v : option value) : Prop := act c v = v.

End Slot.

(** ** Reading one order's entries *)

Module OrderEntries.
Import Redis OrderModel OrderbookStorage.

(** The set commands, and the sorted-set commands, that add or remove the
    member [id] and nothing else. *)
Definition about_set (id : string) (c : command) : Prop :=
  match c with
  | SADD _ m | SREM _ m => m = id
  | _ => False
  end.

Definition about_zset (id : string) (c : command) : Prop :=
  match c with
  | ZADD _ _ m => m = id
  | ZREM _ ms => ms = [id]
  | _ => False
  end.

(** [sismember] and [zscore], on the value a key holds. *)
Definition member_of (v : option value) (m : string) : result bool :=
  match v with
  | None => Ok false
  | Some (VSet s) => Ok (bool_decide (m ∈ s))
  | Some _ => Throw WRONGTYPE
  end.

Definition score_of (v : option value) (m : string) : result (option Q) :=
  match v with
  | None => Ok None
  | Some (VZSet z) => Ok (z !! m)
  | Some _ => Throw WRONGTYPE
  end.

(** An order of which the store holds nothing. *)
Definition unknown (chain : string) (id : string) (sets : list string) (d : db) : Prop :=
  sismember (storedOrdersSetKey chain) id d = Ok false
  ∧ zscore (activeOrdersOrderedSetKey chain) id d = Ok None
  ∧ d !! getFullOrderKey chain id = None
  ∧ (∀ k, k ∈ sets → zscore k id d = Ok None)
  ∧ d !! getOrderMatchesSet chain id = None.

Definition with_status (s : OrderStatus) (item : OrderData) : OrderData :=
  {| data_id := data_id item; status := s; order := order item;
     order_item := order_item item; stringify := stringify item |}.

(** A store in which the match set of the listing 0xa was overwritten by
    a string. *)
Definition damaged : state :=
  State (<[getOrderMatchesSet Scenario.chain "0xa" := VString "?"]>
           (store (save Scenario.chain [Scenario.listing active] Scenario.empty))) [].

End OrderEntries.

(** ** Addresses in keys *)

Module KeyText.
Import OrderModel.

(** A text without ':', as addresses and token ids are. *)
Fixpoint colon_free (s : string) : bool :=
  match s with
  | EmptyString => true
  | String c s' => negb (Ascii.eqb c ":"%char) && colon_free s'
  end.

(** An order whose complication and collection are such texts. *)
Definition plain (o : Order) : Prop :=
  colon_free (complication (params o)) = true
  ∧ colon_free (item_collection (getOrderItem o)) = true.

End KeyText.

(** ** The nonce in memory and the nonce on record *)

Module NonceRecord.
Import NonceProvider.
Local Open Scope Z_scope.

(** The document is not ahead of the nonce in memory. *)
Definition behind (st : state) : Prop :=
  match _ref st, _nonce st with
  | Some d, Some n => nonce d <= n
  | _, _ => True
  end.

(** The document holds the nonce in memory. *)
Definition flushed (st : state) : Prop :=
  match _ref st, _nonce st with
  | Some d, Some n => nonce d = n
  | _, _ => False
  end.


(** The save timer fires and the document store accepts its write before
    anything else happens. *)
Definition saved (now : Z) (st : state) : state :=
  match save_timer now st with
  | (st', Some w) => save_settles w None st'
  | (st', None) => st'
  end.

(** A provider made for the same account and exchange on the document
    [st] left behind, run until its nonce is loaded. *)
Definition successor (st : state) (minNonce now : Z) : state :=
  run_loaded (loaded minNonce now)
    (run_lock true
       (new_NonceProvider (_chainId st) (_accountAddress st) (_exchangeAddress st)
          (_saveDelay st) (_ref st))).

(** The events in which [getNonce] is called or goes on. *)
Definition is_call (e : event) : Prop :=
  match e with
  | call_getNonce | resume_getNonce => True
  | _ => False
  end.

End NonceRecord.

(** ** What the network configuration needs *)

Module ConfigNeeds.
Import Config.

(** [sub] occurs in [s]. *)
Definition occurs (sub s : string) : Prop :=
  ∃ m, String.substring m (String.length sub) s = sub.

(** What makes [getNetworkConfig] return: the variables it reads are set,
    and the calls it makes go through. *)
Definition sufficient (forking : bool) (lib : Libraries) (e : env) (chain : string)
  : Prop :=
  ∃ ws url key exe,
    e !! "WEBSOCKET_PROVIDER_URL" = Some ws
    ∧ e !! "HTTP_PROVIDER_URL" = Some url
    ∧ e !! "INITIATOR_KEY" = Some key
    ∧ e !! "MATCH_EXECUTOR_ADDRESS" = Some exe
    ∧ JsonRpcProvider_error lib url chain = None
    ∧ WebSocketProvider_error lib ws chain = None
    ∧ (∃ a, getExchangeAddress lib chain = Ok a)
    ∧ Wallet_error lib key = None
    ∧ if forking
      then occurs "127.0.0.1" url
           ∧ ∃ b, getBalance lib {| http_url := url; http_network := chain |}
                    {| privateKey := key |} = Ok b
      else ∃ fk, e !! "FLASHBOTS_AUTH_SIGNER_KEY" = Some fk
                 ∧ Wallet_error lib fk = None
                 ∧ FlashbotsBundleProvider_error lib
                     {| http_url := url; http_network := chain |} {| privateKey := fk |}
                     (if decide (chain = Mainnet) then DEFAULT_FLASHBOTS_RELAY
                      else goerli_relay) = None.

(** An environment for a local fork, with the initiator's key. *)
Definition fork_env (url key : string) : env :=
  list_to_map [
    ("WEBSOCKET_PROVIDER_URL", "ws://127.0.0.1:8545");
    ("HTTP_PROVIDER_URL", url);
    ("INITIATOR_KEY", key);
    ("MATCH_EXECUTOR_ADDRESS", "0xexec") ].

End ConfigNeeds.

(** ** The HTTP routes of the matching engine *)

Module Routes.
Local Open Scope Z_scope.

(** What [request.params] and [request.body] can be; an object lists each
    of its properties once. *)
#[local] Set Warnings "-register-all".
Inductive jsvalue :=
| JUndefined
| JNull
| JBool (b : bool)
| JNumber (n : Z)
| JString (s : string)
| JArray (items : list jsvalue)
| JObject (fields : list (string * jsvalue)).

(** [k in obj], and [obj[k]]. *)
Fixpoint field (k : string) (fs : list (string * jsvalue)) : option jsvalue :=
  match fs with
  | [] => None
  | (k', v) :: fs' => if decide (k' = k) then Some v else field k fs'
  end.

(** [typeof p == 'object' && p && k in p && typeof p[k] === 'string' ? p[k] : ''] *)
Definition string_param (k : string) (p : jsvalue) : string :=
  match p with
  | JObject fs =>
      match field k fs with
      | Some (JString s) => s
      | _ => ""
      end
  | _ => ""
  end.

(** [typeof b == 'object' && b && 'orders' in b && Array.isArray(b.orders) ? b.orders : []] *)
Definition orders_param (b : jsvalue) : list jsvalue :=
  match b with
  | JObject fs =>
      match field "orders" fs with
      | Some (JArray items) => items
      | _ => []
      end
  | _ => []
  end.

(** [toLowerCase], on the letters an address can have. *)
Definition lower (c : Ascii.ascii) : Ascii.ascii :=
  let n := Ascii.nat_of_ascii c in
  if ((65 <=? n) && (n <=? 90))%nat then Ascii.ascii_of_nat (n + 32) else c.

Fixpoint toLowerCase (s : string) : string :=
  match s with
  | EmptyString => EmptyString
  | String c s' => String (lower c) (toLowerCase s')
  end.

Record JobCounts := { waiting : Z; active_jobs : Z; completed : Z; failed_jobs : Z }.

Inductive Method := GET | PUT | POST.

Section Handlers.
(** The order, its parameters, the health report and the execution status
    are the storage's and the processes' own. *)
Variables Order OrderParams Health ExecutionStatus : Type.

(** [ethers.utils.isAddress] and [ethers.utils.isHexString]. *)
Variable isAddress : string → bool.
Variable isHexString : string → bool.

(** The processes of a collection, as they answer when asked. *)
Variable matchingEngine_count orderRelay_count : string → Z.
Variable matchingEngine_jobCounts orderRelay_jobCounts : string → JobCounts.
Variable matchingEngine_health orderRelay_health : string → Health.

(** [startCollection]: [None] when it resolves, and what [JSON.stringify]
    shows of the error when it rejects. *)
Variable startCollection_error : string → option string.

(** The orderbook storage, as it answers when asked. *)
Variable getExecutionStatus : string → ExecutionStatus.
Variable getStatus : string → string.
Variable getOrder : string → option Order.
Variable getOrderCollections : Order → list string.
Variable getOrderParams : Order → OrderParams.

(** [Date.now()] *)
Variable now : Z.

(** What a handler does besides answering. *)
Inductive effect :=
| Closed_matchingEngine (collection : string)
| Closed_orderRelay (collection : string)
| Started (collection : string)
| Added (collection id : string) (order : OrderParams) (proposerInitiatedAt : Z)
| Logged (entry : Logger.entry).

Record ProcessStatus := {
  healthStatus : Health;
  jobsProcessing : Z;
  jobCounts : JobCounts
}.

Inductive reply :=
| CollectionStatus (isSynced : bool) (matchingEngine orderRelay : ProcessStatus)
| StatusOk
| OrderStatus (status : ExecutionStatus)
| OrderStatuses (data : list ExecutionStatus)
| Triggered (success : bool) (reason : option string).

Definition base : string := "/matching".

(** GET /matching/collection/:collection *)
Definition get_collection (params : jsvalue) : result reply * list effect :=
  let _collection := string_param "collection" params in
  if negb (isAddress _collection) then (Throw "Invalid collection address", [])
  else
    let collection := toLowerCase _collection in
    let matchingEngineJobsProcessing := matchingEngine_count collection in
    let matchingEngineJobCounts := matchingEngine_jobCounts collection in
    let orderRelayJobsProcessing := orderRelay_count collection in
    let orderRelayJobCounts := orderRelay_jobCounts collection in
    let matchingEngineHealth := matchingEngine_health collection in
    let orderRelayHealth := orderRelay_health collection in
    (Ok (CollectionStatus
           ((waiting orderRelayJobCounts <? 500) && (waiting matchingEngineJobCounts <? 500))
           {| healthStatus := matchingEngineHealth;
              jobsProcessing := matchingEngineJobsProcessing;
              jobCounts := matchingEngineJobCounts |}
           {| healthStatus := orderRelayHealth;
              jobsProcessing := orderRelayJobsProcessing;
              jobCounts := orderRelayJobCounts |}),
     [Closed_matchingEngine collection; Closed_orderRelay collection]).

(** PUT /matching/collection/:collection *)
Definition put_collection (params : jsvalue) : result reply * list effect :=
  let _collection := string_param "collection" params in
  if negb (isAddress _collection) then (Throw "Invalid collection address", [])
  else
    let collection := toLowerCase _collection in
    (Ok StatusOk,
     Started collection ::
       match startCollection_error collection with
       | Some err =>
           [Logged (Logger.Entry Logger.lvl_error ("PUT " +:+ base +:+ "/:collection")
                      ("Failed to start collection " +:+ collection +:+ " " +:+ err))]
       | None => []
       end).

(** GET /matching/order/:order *)
Definition get_order (params : jsvalue) : result reply * list effect :=
  let orderId := string_param "order" params in
  if negb (isHexString orderId) then (Throw "Invalid order hash", [])
  else (Ok (OrderStatus (getExecutionStatus orderId)), []).

(** The loop of POST /matching/orders over the ids. *)
Definition valid_id (v : jsvalue) : bool :=
  match v with
  | JString s => isHexString s
  | _ => false
  end.

Definition id_text (v : jsvalue) : string :=
  match v with JString s => s | _ => "" end.

(** POST /matching/orders *)
Definition post_orders (body : jsvalue) : result reply * list effect :=
  let orderIds := orders_param body in
  if forallb valid_id orderIds
  then (Ok (OrderStatuses (map (fun v => getExecutionStatus (id_text v)) orderIds)), [])
  else (Throw "Invalid order hash", []).

(** PUT /matching/order/:order *)
Definition put_order (params : jsvalue) : result reply * list effect :=
  let orderId := string_param "order" params in
  if negb (isHexString orderId) then (Throw "Invalid order hash", [])
  else
    let status := getStatus orderId in
    if negb (bool_decide (status = "active"))
    then (Ok (Triggered false (Some "order is not active")), [])
    else
      match getOrder orderId with
      | None => (Ok (Triggered false (Some "failed to find order")), [])
      | Some order =>
          let collections := getOrderCollections order in
          let orderParams := getOrderParams order in
          match collections with
          | [collection] =>
              (Ok (Triggered true None),
               [ Added collection orderId orderParams now;
                 Closed_matchingEngine collection; Closed_orderRelay collection ])
          | _ =>
              (Ok (Triggered false (Some "order has multiple collections")),
               [Logged (Logger.Entry Logger.lvl_error ("PUT " +:+ base +:+ "/order/:order")
                          ("Order " +:+ orderId +:+ " has multiple collections"))])
          end
      end.

(** [register]: the routes, given [config.components.api.readonly]. *)
Definition register (readonly : bool)
  : list (Method * string * (jsvalue → result reply * list effect)) :=
  [ (GET, base +:+ "/collection/:collection", get_collection) ]
  ++ (if negb readonly then [ (PUT, base +:+ "/collection/:collection", put_collection) ]
      else [])
  ++ [ (GET, base +:+ "/order/:order", get_order);
       (POST, base +:+ "/orders", post_orders) ]
  ++ (if negb readonly then [ (PUT, base +:+ "/order/:order", put_order) ] else []).

(** The effects that change what the engine works on. *)
Definition mutates (e : effect) : Prop :=
  match e with
  | Started _ | Added _ _ _ _ => True
  | _ => False
  end.

End Handlers.

Arguments Closed_matchingEngine {OrderParams} collection.
Arguments Closed_orderRelay {OrderParams} collection.
Arguments Started {OrderParams} collection.
Arguments Added {OrderParams} collection id order proposerInitiatedAt.
Arguments Logged {OrderParams} entry.

End Routes.

(** * Properties *)

(** ** The store *)

Module RedisFacts.
Import Redis.

Lemma foldr_delete_lookup_ne {V} (ks : list string) (m : gmap string V) (k : string) :
  k ∉ ks → foldr delete m ks !! k = m !! k.
Proof.
  induction ks as [|k0 ks IH]; intros Hk; [done|].
  apply not_elem_of_cons in Hk as [Hne Hk]. cbn.
  rewrite lookup_delete_ne by done. auto.
Qed.

Lemma foldr_delete_lookup_in {V} (ks : list string) (m : gmap string V) (k : string) :
  k ∈ ks → foldr delete m ks !! k = None.
Proof.
  induction ks as [|k0 ks IH]; intros Hk; [by apply elem_of_nil in Hk|].
  cbn. destruct (decide (k0 = k)) as [->|Hne].
  - apply lookup_delete_eq.
  - rewrite lookup_delete_ne by done.
    apply elem_of_cons in Hk as [?|?]; [congruence|auto].
Qed.

Lemma foldr_delete_subseteq {V} (ks : list string) (m : gmap string V) :
  foldr delete m ks ⊆ m.
Proof.
  induction ks as [|k ks IH]; [done|]. cbn. etrans; [apply delete_subseteq|done].
Qed.

Lemma put_set_ne k s d k' : k ≠ k' → put_set k s d !! k' = d !! k'.
Proof.
  intros. unfold put_set.
  case_decide; [by rewrite lookup_delete_ne|by rewrite lookup_insert_ne].
Qed.

Lemma put_zset_ne k z d k' : k ≠ k' → put_zset k z d !! k' = d !! k'.
Proof.
  intros. unfold put_zset.
  case_decide; [by rewrite lookup_delete_ne|by rewrite lookup_insert_ne].
Qed.

Lemma not_written_single (k k0 : string) : k ∉ [k0] → k0 ≠ k.
Proof. intros Hk ->. apply Hk. by left. Qed.

Lemma single_not_written (k k0 : string) : k ≠ k0 → k ∉ [k0].
Proof. intros Hne Hk%list_elem_of_singleton. done. Qed.

(** A command leaves every key it does not name as it was. *)
Lemma run_frame c d k : k ∉ written c → (run c d).1 !! k = d !! k.
Proof.
  destruct c as [k0 m|k0 sc m|k0 v|k0 m|k0 ms|ks]; cbn [written run]; intros Hk;
    try (apply not_written_single in Hk).
  - unfold sadd. destruct (d !! k0) as [[| |]|]; cbn; try done; by rewrite lookup_insert_ne.
  - unfold zadd. destruct (d !! k0) as [[| |]|]; cbn; try done; by rewrite lookup_insert_ne.
  - unfold set. cbn. by rewrite lookup_insert_ne.
  - unfold srem. destruct (d !! k0) as [[| |]|]; cbn; try done. by apply put_set_ne.
  - unfold zrem. destruct (d !! k0) as [[| |]|]; cbn; try done. by apply put_zset_ne.
  - unfold del. cbn. by apply foldr_delete_lookup_ne.
Qed.

Lemma exec_cons c txn d :
  (exec (c :: txn) d).1 = (exec txn (run c d).1).1.
Proof.
  cbn [exec]. destruct (run c d) as [d1 r]. cbn [fst]. by destruct (exec txn d1).
Qed.

Lemma exec_app txn1 txn2 d :
  (exec (txn1 ++ txn2) d).1 = (exec txn2 (exec txn1 d).1).1.
Proof.
  revert d. induction txn1 as [|c txn1 IH]; intros d; [done|].
  rewrite <- app_comm_cons, !exec_cons. apply IH.
Qed.




Lemma get_ext k d d' : d' !! k = d !! k → get k d' = get k d.
Proof. unfold get. by intros ->. Qed.








(** *** Removals only take away *)

Lemma shrinks_at_same (d d' : db) k :
  d' !! k = d !! k →
  match d' !! k with
  | None => True
  | Some (VString s) => d !! k = Some (VString s)
  | Some (VSet s') => ∃ s, d !! k = Some (VSet s) ∧ s' ⊆ s
  | Some (VZSet z') => ∃ z, d !! k = Some (VZSet z) ∧ z' ⊆ z
  end.
Proof. intros ->. destruct (d !! k) as [[| |]|]; eauto. Qed.

Lemma shrinks_refl d : shrinks d d.
Proof. intros k. by apply shrinks_at_same. Qed.

Lemma shrinks_trans d1 d2 d3 : shrinks d1 d2 → shrinks d2 d3 → shrinks d1 d3.
Proof.
  intros H12 H23 k. specialize (H12 k). specialize (H23 k).
  destruct (d3 !! k) as [[s|s|z]|]; [| | |done].
  - by rewrite H23 in H12.
  - destruct H23 as (s2 & E2 & Hs). rewrite E2 in H12.
    destruct H12 as (s1 & E1 & Hs1). exists s1. split; [done|by etrans].
  - destruct H23 as (z2 & E2 & Hz). rewrite E2 in H12.
    destruct H12 as (z1 & E1 & Hz1). exists z1. split; [done|by etrans].
Qed.

Lemma run_removal_shrinks c d : removal c → shrinks d (run c d).1.
Proof.
  intros Hc k. destruct (decide (k ∈ written c)) as [Hin|Hnin].
  2: { apply shrinks_at_same. by apply run_frame. }
  destruct c as [k0 m|k0 sc m|k0 v|k0 m|k0 ms|ks]; try done; cbn [written run] in *.
  - apply list_elem_of_singleton in Hin as ->. unfold srem.
    destruct (d !! k0) as [[s|s|z]|] eqn:E; cbn [fst]; rewrite ?E; try done;
      try (by eexists).
    unfold put_set. case_decide.
    + by rewrite lookup_delete_eq.
    + rewrite lookup_insert_eq. exists s. split; [done|].
      apply subseteq_difference_l. done.
  - apply list_elem_of_singleton in Hin as ->. unfold zrem.
    destruct (d !! k0) as [[s|s|z]|] eqn:E; cbn [fst]; rewrite ?E; try done;
      try (by eexists).
    unfold put_zset. case_decide.
    + by rewrite lookup_delete_eq.
    + rewrite lookup_insert_eq. exists z. split; [done|apply foldr_delete_subseteq].
  - unfold del. cbn. by rewrite foldr_delete_lookup_in.
Qed.

Lemma exec_removal_shrinks txn : ∀ d, Forall removal txn → shrinks d (exec txn d).1.
Proof.
  induction txn as [|c txn IH]; intros d Hall; [apply shrinks_refl|].
  apply Forall_cons in Hall as [Hc Hall]. rewrite exec_cons.
  eapply shrinks_trans; [by apply run_removal_shrinks|by apply IH].
Qed.

Lemma shrinks_absent d d' k : shrinks d d' → d !! k = None → d' !! k = None.
Proof.
  intros H E. specialize (H k). rewrite E in H.
  destruct (d' !! k) as [[| |]|]; [done| | |done]; by destruct H as (? & ? & _).
Qed.

Lemma shrinks_not_member d d' k m :
  shrinks d d' → sismember k m d ≠ Ok true → sismember k m d' ≠ Ok true.
Proof.
  intros H. specialize (H k). unfold sismember.
  destruct (d' !! k) as [[s|s'|z]|]; try done.
  destruct H as (s & -> & Hs). intros Hn [= Hm%bool_decide_eq_true]. apply Hn.
  f_equal. apply bool_decide_eq_true. by apply Hs.
Qed.

Lemma shrinks_no_score d d' k m :
  shrinks d d' → (∀ q, zscore k m d ≠ Ok (Some q)) → ∀ q, zscore k m d' ≠ Ok (Some q).
Proof.
  intros H. specialize (H k). unfold zscore.
  destruct (d' !! k) as [[s|s|z']|]; try done.
  destruct H as (z & -> & Hz). intros Hn q [= Hq]. apply (Hn q). f_equal.
  by eapply lookup_weaken.
Qed.

Lemma del_absent ks d k : k ∈ ks → (run (DEL ks) d).1 !! k = None.
Proof. apply foldr_delete_lookup_in. Qed.

Lemma srem_not_member k m d : sismember k m (run (SREM k m) d).1 ≠ Ok true.
Proof.
  cbn [run]. unfold srem, sismember.
  destruct (d !! k) as [[s|s|z]|] eqn:E; cbn [fst]; rewrite ?E; try done.
  unfold put_set. case_decide.
  - by rewrite lookup_delete_eq.
  - rewrite lookup_insert_eq. intros [= Hm%bool_decide_eq_true].
    apply elem_of_difference in Hm as [_ Hm]. apply Hm. by apply elem_of_singleton.
Qed.

Lemma zrem_no_score k ms m d :
  m ∈ ms → ∀ q, zscore k m (run (ZREM k ms) d).1 ≠ Ok (Some q).
Proof.
  intros Hm q. cbn [run]. unfold zrem, zscore.
  destruct (d !! k) as [[s|s|z]|] eqn:E; cbn [fst]; rewrite ?E; try done.
  unfold put_zset. case_decide.
  - by rewrite lookup_delete_eq.
  - rewrite lookup_insert_eq. by rewrite foldr_delete_lookup_in.
Qed.

(** What one command of a transaction of removals achieves still holds
    when the transaction is through, if no removal can undo it. *)
Lemma exec_removal_after (P : db → Prop) txn c d :
  Forall removal txn → c ∈ txn →
  (∀ d0, P (run c d0).1) →
  (∀ d0 d1, shrinks d0 d1 → P d0 → P d1) →
  P (exec txn d).1.
Proof.
  intros Hall Hc Hest Hmono.
  apply list_elem_of_split in Hc as (pre & post & ->).
  rewrite exec_app, exec_cons.
  apply Forall_app in Hall as [_ Hall]. apply Forall_cons in Hall as [_ Hall].
  eapply Hmono; [by apply exec_removal_shrinks|apply Hest].
Qed.

(** *** Kinds of values

    A command changes the kind of value a key holds only by putting a
    value of another kind there. *)


Ltac kinds k k' d :=
  let E := fresh "E" in
  unfold sadd, zadd, set, srem, zrem, put_set, put_zset;
  destruct (decide (k' = k)) as [->|?];
  [ destruct (d !! k) as [[?|?|?]|] eqn:E
  | destruct (d !! k') as [[?|?|?]|] eqn:E ];
  cbn [fst]; repeat case_decide;
  rewrite ?lookup_insert_eq, ?lookup_delete_eq, ?lookup_insert_ne, ?lookup_delete_ne
    by done;
  rewrite ?E; try done; try congruence.






End RedisFacts.

(** ** Orderbook storage *)

Ltac key_unfold :=
  unfold OrderbookStorage.getOrderMatchesSet,
    OrderbookStorage.matchesByGasPriceOrderedSetKey,
    OrderbookStorage.getFullMatchKey, OrderbookStorage.storedOrdersSetKey,
    OrderbookStorage.activeOrdersOrderedSetKey,
    OrderbookStorage.executedOrdersOrderedSetKey,
    OrderbookStorage.getFullOrderKey, OrderbookStorage.getTokenListingsSet,
    OrderbookStorage.getTokenOffersSet,
    OrderbookStorage.getCollectionTokenListingsSet,
    OrderbookStorage.getCollectionTokenOffersSet,
    OrderbookStorage.getCollectionWideOffersSet, OrderbookStorage.version in *.

(** Two keys differ: strip what they share, then compare characters. *)
Ltac key_neq :=
  let H := fresh "Hk" in
  intros H; key_unfold; cbv zeta in H;
  repeat (apply String.app_inj in H);
  cbv [String.append] in H; discriminate H.

Module StorageFacts.
Import OrderModel OrderbookStorage Redis RedisFacts.

Section Keys.
Variable chain : string.

Lemma index_sets_scoped o sets sc :
  _getOrderItemSets o = Ok (sets, sc) → ∀ k, k ∈ sets → scoped k.
Proof.
  unfold _getOrderItemSets.
  destruct (side (params o)), (getOrderItem o); intros [= <- <-] k Hk;
    repeat (apply elem_of_cons in Hk as [->|Hk]); try (by apply elem_of_nil in Hk);
    eexists; key_unfold; cbv zeta; reflexivity.
Qed.

Lemma index_sets_score o sets sc :
  _getOrderItemSets o = Ok (sets, sc) → sc = startPriceEth (params o).
Proof.
  unfold _getOrderItemSets.
  destruct (side (params o)), (getOrderItem o); by intros [= _ <-].
Qed.

Lemma scoped_not_orders k : scoped k → k ≠ storedOrdersSetKey chain.
Proof. intros [rest ->]. key_neq. Qed.

Lemma scoped_not_active k : scoped k → k ≠ activeOrdersOrderedSetKey chain.
Proof. intros [rest ->]. key_neq. Qed.

Lemma scoped_not_full k id : scoped k → k ≠ getFullOrderKey chain id.
Proof. intros [rest ->]. key_neq. Qed.

Lemma orders_not_active : storedOrdersSetKey chain ≠ activeOrdersOrderedSetKey chain.
Proof. key_neq. Qed.

Lemma orders_not_full id : storedOrdersSetKey chain ≠ getFullOrderKey chain id.
Proof. key_neq. Qed.

Lemma active_not_full id : activeOrdersOrderedSetKey chain ≠ getFullOrderKey chain id.
Proof. key_neq. Qed.

Lemma store_commit item txn st :
  store (commit item txn st) = (exec txn (store st)).1.
Proof. unfold commit. by destruct (exec txn (store st)). Qed.

(** What [save_item] leaves in the store does not depend on what was
    logged before. *)
Lemma store_save_item_logged item d l l' :
  store (save_item chain item (State d l)) = store (save_item chain item (State d l')).
Proof.
  unfold save_item. destruct (_getOrderItemSets _) as [[sets sc]|msg]; [|done].
  destruct (status item); cbn [store logged]; rewrite ?store_commit; try done;
    destruct (smembers _ d) as [ms|err]; cbn [store]; try done;
    destruct (0 <? length ms)%nat; by rewrite !store_commit.
Qed.

Lemma store_save_logged items d l l' :
  store (save chain items (State d l)) = store (save chain items (State d l')).
Proof.
  revert d l l'. induction items as [|item items IH]; intros d l l'; [done|].
  unfold save in *. cbn [fold_left].
  pose proof (store_save_item_logged item d l l') as Heq.
  destruct (save_item chain item (State d l)) as [d1 l1].
  destruct (save_item chain item (State d l')) as [d2 l2].
  cbn in Heq. subst d2. apply IH.
Qed.

Lemma store_save_active item st sets sc :
  status item = active →
  _getOrderItemSets (new_Order item) = Ok (sets, sc) →
  store (save_item chain item st)
    = (exec (active_txn chain item sets sc) (store st)).1.
Proof.
  intros Hact Hsets. unfold save_item. by rewrite Hsets, Hact, store_commit.
Qed.

Lemma store_save_inactive item st sets sc matches :
  status item ≠ active →
  _getOrderItemSets (new_Order item) = Ok (sets, sc) →
  smembers (getOrderMatchesSet chain (data_id item)) (store st) = Ok matches →
  store (save_item chain item st)
    = (exec (inactive_txn chain item sets matches) (store st)).1.
Proof.
  intros Hst Hsets Hm. unfold save_item. rewrite Hsets.
  destruct (status item); [done|..]; cbn [store]; rewrite Hm;
    destruct (0 <? length matches)%nat; by rewrite store_commit.
Qed.

Lemma inactive_txn_removal item sets matches :
  Forall removal (inactive_txn chain item sets matches).
Proof.
  unfold inactive_txn. destruct (0 <? length matches)%nat;
    rewrite ?Forall_app, ?Forall_cons, ?Forall_fmap; split_and!;
    try done; try apply Forall_nil; by apply Forall_true.
Qed.

(** The currency an order is made in has no part in the sets it is
    indexed into. *)
Lemma index_sets_ignore_currency o ccy :
  _getOrderItemSets (with_currency ccy o) = _getOrderItemSets o.
Proof.
  unfold _getOrderItemSets, with_currency. cbn.
  by destruct (side (params o)), (getOrderItem o).
Qed.

(** What saving an entry that is not active removes. *)
Lemma save_inactive_cleanup item st sets sc matches :
  status item ≠ active →
  _getOrderItemSets (new_Order item) = Ok (sets, sc) →
  smembers (getOrderMatchesSet chain (data_id item)) (store st) = Ok matches →
  let d' := store (save_item chain item st) in
  d' !! getOrderMatchesSet chain (data_id item) = None
  ∧ d' !! getFullOrderKey chain (data_id item) = None
  ∧ has chain (data_id item) d' ≠ Ok true
  ∧ (∀ q, zscore (activeOrdersOrderedSetKey chain) (data_id item) d' ≠ Ok (Some q))
  ∧ (∀ k, k ∈ sets → ∀ q, zscore k (data_id item) d' ≠ Ok (Some q))
  ∧ (∀ m, m ∈ matches →
       d' !! getFullMatchKey chain m = None
       ∧ (∀ q, zscore (matchesByGasPriceOrderedSetKey chain) m d' ≠ Ok (Some q))
       ∧ sismember (getOrderMatchesSet chain m) (data_id item) d' ≠ Ok true).
Proof.
  intros Hst Hsets Hm d'. subst d'.
  rewrite (store_save_inactive item st sets sc matches Hst Hsets Hm).
  pose proof (inactive_txn_removal item sets matches) as Hrem.
  assert (Hne : ∀ m, m ∈ matches → (0 <? length matches)%nat = true).
  { intros m Hin. destruct matches; [by apply elem_of_nil in Hin|done]. }
  split_and!.
  - apply (exec_removal_after (fun d => d !! _ = None) _
             (DEL [getOrderMatchesSet chain (data_id item)])); [done| | |].
    + unfold inactive_txn. rewrite !elem_of_app. right. right. right. by left.
    + intros d0. apply del_absent. by left.
    + intros d0 d1. apply shrinks_absent.
  - apply (exec_removal_after (fun d => d !! _ = None) _
             (DEL [getFullOrderKey chain (data_id item)])); [done| | |].
    + unfold inactive_txn. rewrite !elem_of_app. left. right. right. by left.
    + intros d0. apply del_absent. by left.
    + intros d0 d1. apply shrinks_absent.
  - unfold has.
    apply (exec_removal_after (fun d => sismember _ _ d ≠ Ok true) _
             (SREM (storedOrdersSetKey chain) (data_id item))); [done| | |].
    + unfold inactive_txn. rewrite !elem_of_app. left. by left.
    + intros d0. apply srem_not_member.
    + intros d0 d1. apply shrinks_not_member.
  - apply (exec_removal_after (fun d => ∀ q, zscore _ _ d ≠ Ok (Some q)) _
             (ZREM (activeOrdersOrderedSetKey chain) [data_id item])); [done| | |].
    + unfold inactive_txn. rewrite !elem_of_app. left. right. by left.
    + intros d0. apply zrem_no_score. by left.
    + intros d0 d1. apply shrinks_no_score.
  - intros k Hk.
    apply (exec_removal_after (fun d => ∀ q, zscore _ _ d ≠ Ok (Some q)) _
             (ZREM k [data_id item])); [done| | |].
    + unfold inactive_txn. rewrite !elem_of_app. right. left.
      apply list_elem_of_fmap. by exists k.
    + intros d0. apply zrem_no_score. by left.
    + intros d0 d1. apply shrinks_no_score.
  - intros m Hin. specialize (Hne m Hin). split_and!.
    + apply (exec_removal_after (fun d => d !! _ = None) _
               (DEL (map (getFullMatchKey chain) matches))); [done| | |].
      * unfold inactive_txn. rewrite Hne, !elem_of_app. right. right. left. left. by left.
      * intros d0. apply del_absent. apply list_elem_of_fmap. by exists m.
      * intros d0 d1. apply shrinks_absent.
    + apply (exec_removal_after (fun d => ∀ q, zscore _ _ d ≠ Ok (Some q)) _
               (ZREM (matchesByGasPriceOrderedSetKey chain) matches)); [done| | |].
      * unfold inactive_txn. rewrite Hne, !elem_of_app. right. right. left. left.
        right. by left.
      * intros d0. by apply zrem_no_score.
      * intros d0 d1. apply shrinks_no_score.
    + apply (exec_removal_after (fun d => sismember _ _ d ≠ Ok true) _
               (SREM (getOrderMatchesSet chain m) (data_id item))); [done| | |].
      * unfold inactive_txn. rewrite Hne, !elem_of_app. right. right. left. right.
        apply list_elem_of_fmap. by exists m.
      * intros d0. apply srem_not_member.
      * intros d0 d1. apply shrinks_not_member.
Qed.

End Keys.

(** *** The kinds [save] keeps *)

Section Kinds.
Variable chain : string.






End Kinds.

End StorageFacts.

Import OrderModel OrderbookStorage.




(** C7: a sell order on a whole collection is rejected.  The index-sets
    derivation throws "Unsupported order side" before any command is
    queued, so the store is left as it was; the catch block logs the error;
    and the entries that follow in the batch are processed, on the store
    the rejected entry found. *)
Theorem save_sell_collection_rejected (chain : string) (item : OrderData)
    (rest : list OrderData) (st : state) (collection : string) :
  side (order item) = sell →
  order_item item = CollectionItem collection →
  _getOrderItemSets (new_Order item) = Throw "Unsupported order side"
  ∧ store (save_item chain item st) = store st
  ∧ logged (save_item chain item st) =
      (logged st ++
        [Logger.Entry Logger.lvl_error "orderbook-storage"
           ("Failed to save order event " +:+ data_id item +:+ " - "
              +:+ status_string (status item) +:+ " "
              +:+ show_error "Unsupported order side")])%list
  ∧ save chain (item :: rest) st = save chain rest (save_item chain item st)
  ∧ store (save chain (item :: rest) st) = store (save chain rest st).
Proof.
  intros Hside Hitem.
  assert (Hthrow : _getOrderItemSets (new_Order item) = Throw "Unsupported order side").
  { unfold _getOrderItemSets. cbn. by rewrite Hside, Hitem. }
  assert (Hitem' : save_item chain item st =
    State (store st) (save_failed item (show_error "Unsupported order side") (logged st))).
  { unfold save_item. by rewrite Hthrow. }
  split_and!.
  - done.
  - by rewrite Hitem'.
  - by rewrite Hitem'.
  - done.
  - unfold save at 1. cbn [fold_left]. fold (save chain rest (save_item chain item st)).
    rewrite Hitem'. destruct st as [d l]. apply StorageFacts.store_save_logged.
Qed.

Lemma save_sell_collection_rejected_witness :
  _getOrderItemSets (new_Order (Scenario.collection_listing active))
    = Throw "Unsupported order side"
  ∧ store (save_item Scenario.chain (Scenario.collection_listing active) Scenario.empty)
      = store Scenario.empty
  ∧ logged (save_item Scenario.chain (Scenario.collection_listing active) Scenario.empty) =
      (logged Scenario.empty ++
        [Logger.Entry Logger.lvl_error "orderbook-storage"
           ("Failed to save order event " +:+ "0xe" +:+ " - "
              +:+ status_string active +:+ " "
              +:+ show_error "Unsupported order side")])%list
  ∧ save Scenario.chain [Scenario.collection_listing active; Scenario.offer active]
      Scenario.empty
    = save Scenario.chain [Scenario.offer active]
        (save_item Scenario.chain (Scenario.collection_listing active) Scenario.empty)
  ∧ store (save Scenario.chain
             [Scenario.collection_listing active; Scenario.offer active] Scenario.empty)
    = store (save Scenario.chain [Scenario.offer active] Scenario.empty).
Proof.
  apply (save_sell_collection_rejected Scenario.chain (Scenario.collection_listing active)
           [Scenario.offer active] Scenario.empty "0x1").
  - reflexivity.
  - reflexivity.
Defined.

(** The entry after a rejected one is stored as usual. *)
Example rejected_then_saved :
  has Scenario.chain "0xb"
    (store (save Scenario.chain
              [Scenario.collection_listing active; Scenario.offer active] Scenario.empty))
    = Ok true
  ∧ has Scenario.chain "0xe"
      (store (save Scenario.chain
                [Scenario.collection_listing active; Scenario.offer active] Scenario.empty))
      = Ok false.
Proof. split; vm_compute; reflexivity. Qed.

(** C1: the listing 0xa and the offer 0xb are saved and matched, and the
    match 0xm is persisted in both orders' match sets.  Saving the listing
    as cancelled deletes the full match, takes the match off the
    by-gas-price set and deletes the listing's match set; the commands
    meant for the reverse pointer go to [order-matches:0xm], the set named
    after the match, and the offer's match set still holds 0xm
    afterwards. *)
Theorem cancel_leaves_reverse_pointer :
  let c := Scenario.chain in
  let st := save c [Scenario.listing cancelled] Scenario.matched in
  Redis.smembers (getOrderMatchesSet c "0xa") (store Scenario.matched) = Ok ["0xm"]
  ∧ Redis.smembers (getOrderMatchesSet c "0xb") (store Scenario.matched) = Ok ["0xm"]
  ∧ inactive_txn c (Scenario.listing cancelled)
        [Scenario.token_listings; Scenario.collection_token_listings] ["0xm"]
      = [ Redis.SREM (storedOrdersSetKey c) "0xa";
          Redis.ZREM (activeOrdersOrderedSetKey c) ["0xa"];
          Redis.DEL [getFullOrderKey c "0xa"];
          Redis.ZREM Scenario.token_listings ["0xa"];
          Redis.ZREM Scenario.collection_token_listings ["0xa"];
          Redis.DEL [getFullMatchKey c "0xm"];
          Redis.ZREM (matchesByGasPriceOrderedSetKey c) ["0xm"];
          Redis.SREM (getOrderMatchesSet c "0xm") "0xa";
          Redis.DEL [getOrderMatchesSet c "0xa"] ]
  ∧ store st !! getFullMatchKey c "0xm" = None
  ∧ store st !! matchesByGasPriceOrderedSetKey c = None
  ∧ store st !! getOrderMatchesSet c "0xa" = None
  ∧ has c "0xa" (store st) = Ok false
  ∧ Redis.smembers (getOrderMatchesSet c "0xb") (store st) = Ok ["0xm"]
  ∧ Redis.sismember (getOrderMatchesSet c "0xb") "0xm" (store st) = Ok true.
Proof. cbv zeta. split_and!; vm_compute; reflexivity. Qed.

(** C2: two active offers on the same token, with the same complication,
    one in 0xweth and one in 0xusdc, are given the same two index sets, and
    once both are saved each of these sets holds both ids. *)
Theorem currency_not_in_index_key :
  let c := Scenario.chain in
  let sets := [Scenario.token_offers; Scenario.collection_token_offers] in
  let st := save c [Scenario.offer active; Scenario.offer_usdc] Scenario.empty in
  currency (order (Scenario.offer active)) ≠ currency (order Scenario.offer_usdc)
  ∧ _getOrderItemSets (new_Order (Scenario.offer active)) = Ok (sets, (1 # 10)%Q)
  ∧ _getOrderItemSets (new_Order Scenario.offer_usdc) = Ok (sets, (1 # 10)%Q)
  ∧ Forall (fun k =>
        Redis.zscore k "0xb" (store st) = Ok (Some (1 # 10)%Q)
        ∧ Redis.zscore k "0xd" (store st) = Ok (Some (1 # 10)%Q)) sets.
Proof.
  cbv zeta. split_and!.
  - discriminate.
  - reflexivity.
  - reflexivity.
  - repeat constructor; vm_compute; reflexivity.
Qed.

(** ** The nonce provider *)

Module NonceFacts.
Import NonceProvider.
Local Open Scope Z_scope.

(** [_incrementNonce] adds one and returns what it stored. *)
Lemma incrementNonce_spec st :
  match _nonce st with
  | Some n =>
      (_incrementNonce st).1 = Ok (n + 1)
      ∧ _nonce (_incrementNonce st).2 = Some (n + 1)
  | None => _incrementNonce st = (Throw "Nonce provider not running", st)
  end
  ∧ _signal (_incrementNonce st).2 = _signal st
  ∧ _closed (_incrementNonce st).2 = _closed st
  ∧ _nonceLoaded (_incrementNonce st).2 = _nonceLoaded st.
Proof.
  unfold _incrementNonce, _saveNonce. destruct (_nonce st) as [n|] eqn:Hn; [|done].
  destruct (_pendingSave (set_nonce _ st)) eqn:Hp; cbn; rewrite ?Hp; cbn; done.
Qed.

(** A waiting call that goes on either hands out the successor of the
    nonce in memory and stores it, or leaves the provider alone. *)
Lemma getNonce_resume_spec st :
  match getNonce_resume st with
  | (Returned n, st') =>
      _nonceLoaded st = Some fulfilled
      ∧ _nonce st = Some (n - 1) ∧ _nonce st' = Some n
      ∧ _signal st' = _signal st ∧ _closed st' = _closed st
      ∧ _nonceLoaded st' = _nonceLoaded st
  | (_, st') => st' = st
  end.
Proof.
  unfold getNonce_resume. destruct (_nonceLoaded st) as [[| |]|] eqn:Hl; try done.
  pose proof (incrementNonce_spec st) as (Hn & Hs & Hc & Hload).
  destruct (_nonce st) as [n|] eqn:En.
  - destruct Hn as [Hr Hn]. destruct (_incrementNonce st) as [r st']. cbn in *. subst r.
    split_and!; try done; [f_equal; lia|congruence].
  - by rewrite Hn.
Qed.

Lemma getNonce_spec st :
  match getNonce st with
  | (Returned n, st') =>
      _checkSignal st = Ok tt ∧ _nonceLoaded st = Some fulfilled
      ∧ _nonce st = Some (n - 1) ∧ _nonce st' = Some n
  | (_, st') => st' = st
  end.
Proof.
  unfold getNonce, getNonce_enter. destruct (_checkSignal st) as [[]|msg]; [|done].
  destruct (_nonceLoaded st) as [p|] eqn:Hl; [|done].
  pose proof (getNonce_resume_spec st) as H.
  destruct (getNonce_resume st) as [[n|m|] st']; try done.
  destruct H as (H1 & H2 & H3 & _). split_and!; congruence.
Qed.

Lemma save_timer_keeps now st :
  _nonce (save_timer now st).1 = _nonce st
  ∧ _signal (save_timer now st).1 = _signal st
  ∧ _closed (save_timer now st).1 = _closed st
  ∧ _nonceLoaded (save_timer now st).1 = _nonceLoaded st.
Proof.
  destruct st as [c a x dl p n [[|]|] ps cl [|] r lg]; destruct n; done.
Qed.

Lemma save_settles_keeps w write st :
  _nonce (save_settles w write st) = _nonce st
  ∧ _signal (save_settles w write st) = _signal st
  ∧ _closed (save_settles w write st) = _closed st
  ∧ _nonceLoaded (save_settles w write st) = _nonceLoaded st.
Proof. by destruct write. Qed.

Lemma lease_lost_keeps st :
  _nonce (lease_lost st) = _nonce st ∧ _closed (lease_lost st) = _closed st
  ∧ _nonceLoaded (lease_lost st) = _nonceLoaded st.
Proof. unfold lease_lost. by destruct (_signal st). Qed.

Lemma close_keeps st :
  _nonce (close st) = _nonce st ∧ _signal (close st) = _signal st
  ∧ _nonceLoaded (close st) = _nonceLoaded st.
Proof. unfold close. by destruct (_close st && negb (_closed st)). Qed.

(** Once the load is fulfilled, only a call that returns moves the nonce. *)
Lemma step_nonce e rt :
  _nonceLoaded (this rt) = Some fulfilled →
  _nonceLoaded (this (step e rt).2) = Some fulfilled
  ∧ match (step e rt).1 with
    | Some (Returned n) =>
        _nonce (this rt) = Some (n - 1) ∧ _nonce (this (step e rt).2) = Some n
    | _ => _nonce (this (step e rt).2) = _nonce (this rt)
    end.
Proof.
  intros Hl. destruct e; cbn.
  - by destruct (getNonce_enter (this rt)).
  - destruct (awaiting rt) as [|k]; [done|].
    pose proof (getNonce_resume_spec (this rt)) as H.
    destruct (getNonce_resume (this rt)) as [[n|msg|] st']; cbn; subst; try done.
    destruct H as (_ & H1 & H2 & _ & _ & H3). split; [congruence|done].
  - by rewrite Hl.
  - destruct (_pendingSave (this rt)); [|done].
    pose proof (save_timer_keeps now (this rt)) as (Hn & _ & _ & Hk).
    destruct (save_timer now (this rt)) as [st' w]. cbn in *. by rewrite Hn, Hk.
  - destruct (writing rt !! k); [|done]. cbn.
    destruct (save_settles_keeps w write (this rt)) as (-> & _ & _ & ->). done.
  - destruct (lease_lost_keeps (this rt)) as (-> & _ & ->). done.
  - destruct (close_keeps (this rt)) as (-> & _ & ->). done.
Qed.

(** A call returns only when the load is fulfilled. *)
Lemma step_returns e rt n :
  (step e rt).1 = Some (Returned n) → _nonceLoaded (this rt) = Some fulfilled.
Proof.
  destruct e; cbn; try done.
  - by destruct (getNonce_enter (this rt)).
  - destruct (awaiting rt) as [|k]; [done|].
    pose proof (getNonce_resume_spec (this rt)) as H.
    destruct (getNonce_resume (this rt)) as [[m|msg|] st']; cbn; try done.
    by destruct H as (H & _).
  - by destruct (_nonceLoaded (this rt)) as [[| |]|].
  - destruct (_pendingSave (this rt)); [|done]. by destruct (save_timer now (this rt)).
  - by destruct (writing rt !! k).
Qed.

Lemma allocated_from es : ∀ rt n0 i n,
  _nonceLoaded (this rt) = Some fulfilled →
  _nonce (this rt) = Some n0 →
  allocated es rt !! i = Some n → n = n0 + 1 + Z.of_nat i.
Proof.
  induction es as [|e es IH]; intros rt n0 i n Hl Hn0; [done|].
  cbn [allocated]. pose proof (step_nonce e rt Hl) as [Hl' Hstep].
  destruct (step e rt) as [[[m|msg|]|] rt']; cbn in Hl', Hstep.
  - destruct Hstep as [Hpre Hpost]. rewrite Hn0 in Hpre. injection Hpre as Hpre.
    destruct i as [|i]; cbn.
    + intros [= <-]. lia.
    + intros Hi. rewrite (IH rt' m i n Hl' Hpost Hi). lia.
  - apply IH; congruence.
  - apply IH; congruence.
  - apply IH; congruence.
Qed.

Lemma allocated_consecutive es : ∀ rt i n1 n2,
  allocated es rt !! i = Some n1 →
  allocated es rt !! S i = Some n2 →
  n2 = n1 + 1.
Proof.
  induction es as [|e es IH]; intros rt i n1 n2; [done|].
  cbn [allocated]. destruct (step e rt) as [[[m|msg|]|] rt'] eqn:Hstep; try apply IH.
  assert (Hl : _nonceLoaded (this rt) = Some fulfilled).
  { apply (step_returns e rt m). by rewrite Hstep. }
  pose proof (step_nonce e rt Hl) as [Hl' Hn]. rewrite Hstep in Hl', Hn. cbn in Hl', Hn.
  destruct Hn as [_ Hpost].
  destruct i as [|i]; cbn.
  - intros [= <-] H2. rewrite (allocated_from es rt' m 0%nat n2 Hl' Hpost H2). lia.
  - apply IH.
Qed.

(** *** Without the lease *)

Lemma getNonce_enter_no_lease st :
  no_lease st → getNonce_enter st = Throw (rejection st).
Proof.
  unfold no_lease, getNonce_enter, _checkSignal, rejection.
  destruct (_signal st) as [[|]|]; cbn; intros [H|H]; try done. by rewrite H.
Qed.

Lemma getNonce_no_lease st :
  no_lease st → getNonce st = (Threw (rejection st), st).
Proof. intros H. unfold getNonce. by rewrite (getNonce_enter_no_lease st H). Qed.

Lemma run_loaded_keeps r st :
  _signal (run_loaded r st) = _signal st ∧ _closed (run_loaded r st) = _closed st.
Proof.
  destruct r as [w now|err]; [|done]. unfold run_loaded, _loadNonce.
  by destruct (_ref st).
Qed.

Lemma step_signal e rt :
  _signal (this (step e rt).2) =
    match e, _signal (this rt) with
    | signal_aborted, Some _ => Some true
    | _, s => s
    end.
Proof.
  destruct e; cbn.
  - destruct (getNonce_enter (this rt)); cbn; by destruct (_signal (this rt)).
  - destruct (awaiting rt) as [|k]; cbn; [by destruct (_signal (this rt))|].
    pose proof (getNonce_resume_spec (this rt)) as H.
    destruct (getNonce_resume (this rt)) as [[n|msg|] st']; cbn.
    + destruct H as (_ & _ & _ & -> & _). by destruct (_signal (this rt)).
    + subst. by destruct (_signal (this rt)).
    + by destruct (_signal (this rt)).
  - destruct (_nonceLoaded (this rt)) as [[| |]|]; cbn;
      rewrite ?(proj1 (run_loaded_keeps r (this rt))); by destruct (_signal (this rt)).
  - destruct (_pendingSave (this rt)); cbn; [|by destruct (_signal (this rt))].
    pose proof (save_timer_keeps now (this rt)) as (_ & Hs & _).
    destruct (save_timer now (this rt)) as [st' w]. cbn in *. rewrite Hs.
    by destruct (_signal (this rt)).
  - destruct (writing rt !! k); cbn;
      rewrite ?(proj1 (proj2 (save_settles_keeps w write (this rt))));
      by destruct (_signal (this rt)).
  - unfold lease_lost. by destruct (_signal (this rt)) eqn:E.
  - destruct (close_keeps (this rt)) as (_ & -> & _). by destruct (_signal (this rt)).
Qed.

Lemma step_closed e rt :
  _closed (this rt) = true → _closed (this (step e rt).2) = true.
Proof.
  intros Hc. destruct e; cbn.
  - by destruct (getNonce_enter (this rt)).
  - destruct (awaiting rt) as [|k]; [done|].
    pose proof (getNonce_resume_spec (this rt)) as H.
    destruct (getNonce_resume (this rt)) as [[n|msg|] st']; cbn; subst; try done.
    destruct H as (_ & _ & _ & _ & -> & _). done.
  - destruct (_nonceLoaded (this rt)) as [[| |]|]; cbn; try done.
    by rewrite (proj2 (run_loaded_keeps r (this rt))).
  - destruct (_pendingSave (this rt)); cbn; [|done].
    pose proof (save_timer_keeps now (this rt)) as (_ & _ & Hk & _).
    destruct (save_timer now (this rt)) as [st' w]. cbn in *. by rewrite Hk.
  - destruct (writing rt !! k); cbn; [|done].
    by destruct (save_settles_keeps w write (this rt)) as (_ & _ & -> & _).
  - by destruct (lease_lost_keeps (this rt)) as (_ & -> & _).
  - unfold close. rewrite Hc. by rewrite andb_false_r.
Qed.

Lemma step_no_lease e rt : no_lease (this rt) → no_lease (this (step e rt).2).
Proof.
  intros [Hs|Hc]; [left|right; by apply step_closed].
  rewrite step_signal. destruct e, (_signal (this rt)) as [[|]|]; done.
Qed.

Lemma run_events_no_lease es : ∀ rt, no_lease (this rt) → no_lease (this (run_events es rt)).
Proof.
  induction es as [|e es IH]; intros rt H; [done|]. cbn. by apply IH, step_no_lease.
Qed.

Lemma run_events_aborted es : ∀ rt,
  _signal (this rt) = Some true → _signal (this (run_events es rt)) = Some true.
Proof.
  induction es as [|e es IH]; intros rt H; [done|]. cbn. apply IH.
  rewrite step_signal, H. by destruct e.
Qed.

Lemma run_events_unset es : ∀ rt,
  _signal (this rt) = None → _signal (this (run_events es rt)) = None.
Proof.
  induction es as [|e es IH]; intros rt H; [done|]. cbn. apply IH.
  rewrite step_signal, H. by destruct e.
Qed.

Lemma run_events_closed es : ∀ rt,
  _closed (this rt) = true → _closed (this (run_events es rt)) = true.
Proof.
  induction es as [|e es IH]; intros rt H; [done|]. cbn. by apply IH, step_closed.
Qed.

(** Without the lease and with no call waiting, no call comes to wait and
    none returns. *)
Lemma step_no_lease_idle e rt :
  no_lease (this rt) → awaiting rt = 0%nat →
  awaiting (step e rt).2 = 0%nat ∧ ∀ n, (step e rt).1 ≠ Some (Returned n).
Proof.
  intros Hno Hw. destruct e; cbn.
  - by rewrite (getNonce_enter_no_lease _ Hno).
  - by rewrite Hw.
  - by destruct (_nonceLoaded (this rt)) as [[| |]|].
  - destruct (_pendingSave (this rt)); [|done]. by destruct (save_timer now (this rt)).
  - by destruct (writing rt !! k).
  - done.
  - done.
Qed.

Lemma no_lease_idle es : ∀ rt,
  no_lease (this rt) → awaiting rt = 0%nat → allocated es rt = [].
Proof.
  induction es as [|e es IH]; intros rt Hno Hw; [done|].
  cbn [allocated].
  pose proof (step_no_lease e rt Hno) as Hno'.
  destruct (step_no_lease_idle e rt Hno Hw) as [Hw' Hret].
  destruct (step e rt) as [[[n|msg|]|] rt'] eqn:He; cbn in *; try by apply IH.
  by destruct (Hret n).
Qed.

End NonceFacts.

Import NonceProvider.
Local Open Scope Z_scope.

(** C4: along any run of events under one lease (calls of getNonce that
    reach their await and go on, the load settling, the save timer, loss of
    the lease, close), the nonces handed out are consecutive: each is the
    one before plus 1.  A call that returns has raised the nonce in memory
    by exactly 1 and returns the new value. *)
Theorem getNonce_sequential (es : list event) (rt : runtime) :
  (∀ i n1 n2,
      allocated es rt !! i = Some n1 →
      allocated es rt !! S i = Some n2 →
      n2 = n1 + 1)
  ∧ (∀ n st',
      getNonce (this rt) = (Returned n, st') →
      ∃ n0, _nonce (this rt) = Some n0 ∧ n = n0 + 1 ∧ _nonce st' = Some n)
  ∧ (∀ n st',
      getNonce_resume (this rt) = (Returned n, st') →
      ∃ n0, _nonce (this rt) = Some n0 ∧ n = n0 + 1 ∧ _nonce st' = Some n).
Proof.
  split_and!.
  - apply NonceFacts.allocated_consecutive.
  - intros n st' Hget. pose proof (NonceFacts.getNonce_spec (this rt)) as H.
    rewrite Hget in H. destruct H as (_ & _ & Hpre & Hpost).
    exists (n - 1). split_and!; [done|lia|done].
  - intros n st' Hget. pose proof (NonceFacts.getNonce_resume_spec (this rt)) as H.
    rewrite Hget in H. destruct H as (_ & Hpre & Hpost & _).
    exists (n - 1). split_and!; [done|lia|done].
Qed.

Lemma getNonce_sequential_witness :
  allocated [call_getNonce; call_getNonce; load_settles (loaded 3 1000);
             resume_getNonce; timer_fires 2000; resume_getNonce;
             write_settles 0 None; call_getNonce; resume_getNonce] (idle acquiring)
    = [6; 7; 8]
  ∧ 7 = 6 + 1
  ∧ (∃ n0, _nonce running = Some n0 ∧ 6 = n0 + 1
          ∧ _nonce (getNonce running).2 = Some 6).
Proof.
  pose proof (getNonce_sequential
                [call_getNonce; call_getNonce; load_settles (loaded 3 1000);
                 resume_getNonce; timer_fires 2000; resume_getNonce;
                 write_settles 0 None; call_getNonce; resume_getNonce]
                (idle acquiring)) as (Hseq & _).
  pose proof (getNonce_sequential [] (idle running)) as (_ & Hcall & _).
  split; [reflexivity|]. split.
  - apply (Hseq 0%nat 6 7); reflexivity.
  - apply (Hcall 6 (getNonce running).2). reflexivity.
Defined.

(** C5: loading the nonce sets the nonce in memory to the greater of the
    persisted nonce and the watermark userMinOrderNonce, with no +1; when
    there is no persisted document, one is created with the watermark as
    its nonce, and the nonce in memory is that maximum, the watermark. *)
Theorem loadNonce_takes_maximum (minNonce now : Z) (st : state) :
  let st' := _loadNonce minNonce now st in
  match _ref st with
  | Some persisted =>
      _nonce st' = Some (Z.max (nonce persisted) minNonce) ∧ _ref st' = Some persisted
  | None =>
      _nonce st' = Some minNonce
      ∧ ∃ created, _ref st' = Some created ∧ nonce created = minNonce
          ∧ _nonce st' = Some (Z.max (nonce created) minNonce)
  end
  ∧ _nonce (run_loaded (loaded minNonce now) st) = _nonce st'.
Proof.
  cbn zeta. split; [|reflexivity]. unfold _loadNonce.
  destruct (_ref st) as [d|] eqn:Href; cbn.
  - split; [|done]. f_equal. destruct (Z.gtb_spec minNonce (nonce d)); lia.
  - rewrite Z.gtb_ltb, Z.ltb_irrefl. split; [done|].
    eexists. split_and!; [done..|]. cbn. f_equal. lia.
Qed.

(** Persisted 5 and watermark 3 give 5; persisted 5 and watermark 9 give 9;
    no document and watermark 9 give 9 and a document holding 9. *)
Example loadNonce_examples :
  _nonce running = Some 5
  ∧ _nonce (run_loaded (loaded 9 1000) acquiring) = Some 9
  ∧ _nonce (run_loaded (loaded 9 1000)
              (run_lock true (new_NonceProvider "1" "0xacc" "0xexch" 100 None))) = Some 9
  ∧ nonce <$> _ref (run_loaded (loaded 9 1000)
              (run_lock true (new_NonceProvider "1" "0xacc" "0xexch" 100 None))) = Some 9.
Proof. split_and!; reflexivity. Qed.

(** C8, as the claim has it: a provider that was closed while its signal
    is not aborted does not answer "lock expired". *)
Lemma getNonce_closed_counterexample :
  ¬ (∀ st : state,
       _signal st = Some true ∨ _closed st = true →
       getNonce st = (Threw "Nonce provider lock expired", st)).
Proof.
  intros H. specialize (H (close running) (or_intror eq_refl)).
  vm_compute in H. discriminate H.
Qed.

(** C8, amended: once the signal is aborted or the provider is closed,
    every later call of getNonce throws at once, whatever happened in
    between, and leaves the provider, the nonce in memory with it, as it
    was.  The error is "Nonce provider lock expired" when the signal is
    aborted, and "Nonce provider closed" when the provider was closed and
    the signal is not aborted.  If no earlier call was waiting, no nonce is
    handed out any more. *)
Theorem getNonce_rejects_without_lease (rt : runtime) (es : list event) :
  _signal (this rt) = Some true ∨ _closed (this rt) = true →
  let rt' := run_events es rt in
  let msg := if decide (_signal (this rt') = Some false) then "Nonce provider closed"
             else "Nonce provider lock expired" in
  getNonce (this rt') = (Threw msg, this rt')
  ∧ step call_getNonce rt' = (Some (Threw msg), rt')
  ∧ (_signal (this rt) = Some true → msg = "Nonce provider lock expired")
  ∧ (_closed (this rt) = true → _closed (this rt') = true)
  ∧ (awaiting rt = 0%nat → allocated es rt = []).
Proof.
  intros H rt' msg.
  assert (Hno : no_lease (this rt)) by (destruct H as [H|H]; [left; congruence|by right]).
  pose proof (NonceFacts.run_events_no_lease es rt Hno) as Hno'. fold rt' in Hno'.
  split_and!.
  - by rewrite (NonceFacts.getNonce_no_lease (this rt') Hno').
  - cbn. by rewrite (NonceFacts.getNonce_enter_no_lease (this rt') Hno').
  - intros Hs. subst msg rt'. by rewrite (NonceFacts.run_events_aborted es rt Hs).
  - apply NonceFacts.run_events_closed.
  - by apply NonceFacts.no_lease_idle.
Qed.

Lemma getNonce_rejects_without_lease_witness :
  let lost := idle (lease_lost running) in
  let es := [call_getNonce; resume_getNonce; timer_fires 2000; call_close] in
  (_signal (this lost) = Some true ∨ _closed (this lost) = true)
  ∧ getNonce (this (run_events es lost))
      = (Threw "Nonce provider lock expired", this (run_events es lost))
  ∧ allocated es lost = []
  ∧ getNonce (close running) = (Threw "Nonce provider closed", close running).
Proof.
  cbv zeta.
  pose proof (getNonce_rejects_without_lease (idle (lease_lost running))
                [call_getNonce; resume_getNonce; timer_fires 2000; call_close]
                (or_introl eq_refl)) as (Hlost & _ & _ & _ & Hal).
  pose proof (getNonce_rejects_without_lease (idle (close running)) [] (or_intror eq_refl))
    as (Hclosed & _).
  split; [left; reflexivity|]. split; [exact Hlost|]. split; [exact (Hal eq_refl)|].
  exact Hclosed.
Defined.

(** A call that was waiting for the load when the lease was lost still
    goes on once the load settles: [getNonce] checks the signal before its
    [await] only. *)
Example waiting_call_outlives_lease :
  allocated [call_getNonce; signal_aborted; load_settles (loaded 3 1000);
             resume_getNonce; call_getNonce] (idle acquiring) = [6].
Proof. reflexivity. Qed.

(** C10: while the signal is unset (the provider never ran, or run did not
    get the lock), getNonce throws "Nonce provider lock expired" at once,
    whatever was called before, and no nonce is handed out; a run that
    fails to acquire the lock leaves the signal unset. *)
Theorem getNonce_before_lease (rt : runtime) (es : list event) :
  _signal (this rt) = None →
  awaiting rt = 0%nat →
  let rt' := run_events es rt in
  getNonce (this rt') = (Threw "Nonce provider lock expired", this rt')
  ∧ step call_getNonce rt' = (Some (Threw "Nonce provider lock expired"), rt')
  ∧ allocated es rt = []
  ∧ _signal (run_lock false (this rt)) = None.
Proof.
  intros Hs Hw rt'.
  assert (Hno : no_lease (this rt)) by (left; congruence).
  pose proof (NonceFacts.run_events_no_lease es rt Hno) as Hno'. fold rt' in Hno'.
  assert (Hmsg : rejection (this rt') = "Nonce provider lock expired").
  { unfold rejection. subst rt'. by rewrite (NonceFacts.run_events_unset es rt Hs). }
  split_and!.
  - by rewrite (NonceFacts.getNonce_no_lease (this rt') Hno'), Hmsg.
  - cbn. by rewrite (NonceFacts.getNonce_enter_no_lease (this rt') Hno'), Hmsg.
  - by apply NonceFacts.no_lease_idle.
  - done.
Qed.

Lemma getNonce_before_lease_witness :
  let contended := run_lock false fresh in
  let es := [call_getNonce; resume_getNonce; call_close; call_getNonce] in
  _signal fresh = None
  ∧ _signal contended = None
  ∧ getNonce fresh = (Threw "Nonce provider lock expired", fresh)
  ∧ getNonce (this (run_events es (idle contended)))
      = (Threw "Nonce provider lock expired", this (run_events es (idle contended)))
  ∧ allocated es (idle contended) = [].
Proof.
  cbv zeta.
  pose proof (getNonce_before_lease (idle fresh) [] eq_refl eq_refl)
    as (Hfresh & _ & _ & Hrun).
  pose proof (getNonce_before_lease (idle (run_lock false fresh))
                [call_getNonce; resume_getNonce; call_close; call_getNonce]
                eq_refl eq_refl) as (Hcont & _ & Hal & _).
  split; [reflexivity|]. split; [exact Hrun|]. split; [exact Hfresh|].
  split; [exact Hcont|exact Hal].
Defined.

(** ** Network configuration *)

Import Config.

(** Whatever the flags, the broadcaster of a configuration is the forked
    one, the same as with forking enabled. *)
Lemma broadcaster_same_in_both_branches forking lib e chain cfg l :
  getNetworkConfig forking lib e chain = Ok (cfg, l) →
  broadcaster cfg = ForkedNetworkBroadcaster chain (initiator cfg) (httpProvider cfg)
  ∧ isForkingEnabled cfg = forking
  ∧ isFlashbotsEnabled cfg = negb forking.
Proof.
  unfold getNetworkConfig, construct, mbind, result_bind.
  intros H. repeat case_match; simplify_eq/=; done.
Qed.

(** C6: with forking disabled, whenever the configuration is returned
    (every required variable set and every call into the libraries going
    through), it says that flashbots is enabled and carries the relay
    provider with block offset 2, and its broadcaster is the forked network
    broadcaster on the initiator's wallet and the http provider: the direct
    variant, not the private relay. *)
Theorem production_broadcaster_is_forked (lib : Libraries) (e : env) (chain : string)
    (cfg : NetworkConfig) (l : list Logger.entry) :
  getNetworkConfig false lib e chain = Ok (cfg, l) →
  isForkingEnabled cfg = false
  ∧ isFlashbotsEnabled cfg = true
  ∧ (∃ fb, flashbots cfg = Some fb ∧ blockOffset fb = 2
           ∧ fb_relay (provider fb)
             = if decide (chain = Mainnet) then DEFAULT_FLASHBOTS_RELAY else goerli_relay)
  ∧ broadcaster cfg = ForkedNetworkBroadcaster chain (initiator cfg) (httpProvider cfg)
  ∧ variant (broadcaster cfg) = ForkedDirect
  ∧ variant (broadcaster cfg) ≠ PrivateRelayBundle.
Proof.
  intros Hcfg.
  destruct (broadcaster_same_in_both_branches false lib e chain cfg l Hcfg)
    as (Hb & Hf & Hfb).
  split_and!; [done|done| |done|by rewrite Hb|by rewrite Hb].
  revert Hcfg. unfold getNetworkConfig, construct, mbind, result_bind.
  intros H. repeat case_match; simplify_eq/=; eexists; split_and!; done.
Qed.

Lemma production_broadcaster_is_forked_witness :
  ∃ cfg,
    getNetworkConfig false (answering 1) production_env Mainnet = Ok (cfg, [])
    ∧ isFlashbotsEnabled cfg = true
    ∧ (∃ fb, flashbots cfg = Some fb ∧ blockOffset fb = 2
             ∧ fb_relay (provider fb) = DEFAULT_FLASHBOTS_RELAY)
    ∧ broadcaster cfg =
        ForkedNetworkBroadcaster Mainnet {| privateKey := key_1 |}
          {| http_url := "https://node.example/rpc"; http_network := Mainnet |}
    ∧ variant (broadcaster cfg) ≠ PrivateRelayBundle.
Proof.
  assert (Hrun : ∃ cfg, getNetworkConfig false (answering 1) production_env Mainnet
                        = Ok (cfg, [])) by (vm_compute; eauto).
  destruct Hrun as [cfg Hcfg]. exists cfg.
  destruct (production_broadcaster_is_forked (answering 1) production_env Mainnet cfg []
              Hcfg) as (_ & Hfb & Hrelay & Hb & _ & Hv).
  split_and!; [exact Hcfg|exact Hfb|exact Hrelay| |exact Hv].
  rewrite Hb. vm_compute in Hcfg. injection Hcfg as <-. reflexivity.
Defined.

(** A key that is not 32 bytes long stops the configuration at the
    initiator's wallet, before the branch on forking. *)
Example short_key_rejected :
  getNetworkConfig false (answering 1) (<["INITIATOR_KEY" := "0x01"]> production_env) Mainnet
    = Throw "invalid private key"
  ∧ getNetworkConfig true (answering 1) (<["INITIATOR_KEY" := "0x01"]> production_env) Mainnet
    = Throw "invalid private key".
Proof. split; vm_compute; reflexivity. Qed.

(** ** The marketplace enablement table *)

Import OrderConfig.

Lemma config_lookup m sc : config !! m = Some sc → (m, sc) ∈ entries.
Proof. apply elem_of_list_to_map_2. Qed.

Lemma marketplaces_distinct : NoDup marketplaces.
Proof. apply (bool_decide_unpack _). vm_compute. reflexivity. Qed.

Ltac each_entry H :=
  repeat (apply elem_of_cons in H as [H|H]; [injection H as -> ->|]);
  try (by apply elem_of_nil in H).

(** C9, as the claim has it: the entry of infinity is not disabled. *)
Lemma infinity_disabled_counterexample :
  ¬ (∀ sc, config !! "infinity" = Some sc → enabled sc = false).
Proof.
  intros H.
  specialize (H {| source := "infinity"; enabled := true; kinds := Some infinityConfig |}).
  vm_compute in H. specialize (H eq_refl). discriminate H.
Qed.

(** C9, amended: seaport with kind single-token is the only (marketplace,
    kind) pair enabled with a builder, and every other pair the table
    lists is disabled and has no builder.  The entry of infinity is
    enabled at the marketplace level and lists its three kinds (it is
    fully present), each of them disabled.  Every marketplace other than
    infinity and seaport is disabled and lists no kinds.  The table
    recognizes the twenty-two marketplaces of the design. *)
Theorem default_enablement (m k : string) :
  (enabled_with_builder m k = true ↔ m = "seaport" ∧ k = "single-token")
  ∧ (∀ kc, kind_of m k = Some kc →
       (m, k) ≠ ("seaport", "single-token") → kind_enabled kc = false ∧ builder kc = None)
  ∧ config !! "infinity" =
      Some {| source := "infinity"; enabled := true; kinds := Some infinityConfig |}
  ∧ dom infinityConfig = {[ "single-token"; "contract-wide"; "complex" ]}
  ∧ (∀ sc, config !! m = Some sc → m ≠ "infinity" → m ≠ "seaport" →
       enabled sc = false ∧ kinds sc = None)
  ∧ marketplaces =
      [ "infinity"; "seaport"; "wyvern-v2"; "wyvern-v2.3"; "looks-rare";
        "zeroex-v4-erc721"; "zeroex-v4-erc1155"; "foundation"; "x2y2"; "rarible";
        "element-erc721"; "element-erc1155"; "quixotic"; "nouns"; "zora-v3"; "mint";
        "cryptopunks"; "sudoswap"; "universe"; "nftx"; "blur"; "forward" ].
Proof.
  assert (Hkind : ∀ kc, kind_of m k = Some kc →
            (m = "seaport" ∧ k = "single-token"
               ∧ kc = {| kind_enabled := true; builder := Some Seaport_Builders_SingleToken |})
            ∨ ((m, k) ≠ ("seaport", "single-token")
               ∧ kc = {| kind_enabled := false; builder := None |})).
  { unfold kind_of. intros kc. destruct (config !! m) as [sc|] eqn:Hm; [|done]. cbn.
    apply config_lookup in Hm.
    each_entry Hm; cbn -[infinityConfig seaportConfig]; try done.
    - intros Hk%elem_of_list_to_map_2. each_entry Hk; right; done.
    - intros Hk%elem_of_list_to_map_2. each_entry Hk; (left; done) || (right; done). }
  split_and!.
  - unfold enabled_with_builder. split.
    + destruct (kind_of m k) as [kc|] eqn:Hk; [|done].
      destruct (Hkind kc eq_refl) as [(-> & -> & ->)|[_ ->]]; done.
    + intros [-> ->]. vm_compute. reflexivity.
  - intros kc Hk Hne. destruct (Hkind kc Hk) as [(-> & -> & ->)|[_ ->]]; done.
  - vm_compute. reflexivity.
  - apply (bool_decide_unpack _). vm_compute. reflexivity.
  - intros sc Hm Hn1 Hn2. apply config_lookup in Hm. each_entry Hm; done.
  - reflexivity.
Qed.

Lemma default_enablement_witness :
  enabled_with_builder "seaport" "single-token" = true
  ∧ (kind_enabled <$> kind_of "infinity" "complex") = Some false
  ∧ (enabled <$> config !! "blur") = Some false.
Proof.
  pose proof (default_enablement "seaport" "single-token") as (Hiff & _).
  pose proof (default_enablement "infinity" "complex") as (_ & Hother & _).
  pose proof (default_enablement "blur" "single-token") as (_ & _ & _ & _ & Hrest & _).
  split; [apply Hiff; split; reflexivity|]. split.
  - destruct (Hother {| kind_enabled := false; builder := None |} eq_refl) as [_ _];
      [discriminate|reflexivity].
  - destruct (Hrest {| source := "blur"; enabled := false; kinds := None |} eq_refl)
      as [_ _]; [discriminate..|reflexivity].
Defined.

(** ** The store, key by key *)

Module SlotFacts.
Import Redis RedisFacts Slot.

Lemma put_set_lookup k s d : put_set k s d !! k = keep_set s.
Proof.
  unfold put_set, keep_set. case_decide; [apply lookup_delete_eq|apply lookup_insert_eq].
Qed.

Lemma put_zset_lookup k z d : put_zset k z d !! k = keep_zset z.
Proof.
  unfold put_zset, keep_zset. case_decide; [apply lookup_delete_eq|apply lookup_insert_eq].
Qed.

(** A command acts on each key by itself. *)
Lemma run_slot c d k : (run c d).1 !! k = slot c k (d !! k).
Proof.
  unfold slot. case_decide as Hk; [|by apply run_frame].
  destruct c as [k0 m|k0 sc m|k0 x|k0 m|k0 ms|ks]; cbn [written run act] in *;
    try (apply list_elem_of_singleton in Hk as ->).
  - unfold sadd. destruct (d !! k0) as [[| |]|] eqn:E; cbn [fst];
      rewrite ?lookup_insert_eq, ?E; done.
  - unfold zadd. destruct (d !! k0) as [[| |]|] eqn:E; cbn [fst];
      rewrite ?lookup_insert_eq, ?E; done.
  - unfold set. cbn [fst]. rewrite lookup_insert_eq. by destruct (d !! k0) as [[| |]|].
  - unfold srem. destruct (d !! k0) as [[| |]|] eqn:E; cbn [fst];
      rewrite ?put_set_lookup, ?E; done.
  - unfold zrem. destruct (d !! k0) as [[| |]|] eqn:E; cbn [fst];
      rewrite ?put_zset_lookup, ?E; done.
  - unfold del. cbn [fst]. rewrite foldr_delete_lookup_in by done.
    by destruct (d !! k) as [[| |]|].
Qed.

Lemma exec_slots txn : ∀ d k, (exec txn d).1 !! k = slots txn k (d !! k).
Proof.
  induction txn as [|c txn IH]; intros d k; [done|].
  rewrite exec_cons, IH, run_slot. done.
Qed.

Lemma slots_app txn1 txn2 k v : slots (txn1 ++ txn2) k v = slots txn2 k (slots txn1 k v).
Proof. apply foldl_app. Qed.

Lemma slots_cons c txn k v : slots (c :: txn) k v = slots txn k (slot c k v).
Proof. done. Qed.

Lemma slot_ne c k v : k ∉ written c → slot c k v = v.
Proof. intros H. unfold slot. by rewrite decide_False. Qed.

Lemma slot_eq c k v : k ∈ written c → slot c k v = act c v.
Proof. intros H. unfold slot. by rewrite decide_True. Qed.

Lemma slots_frame txn k v : (∀ c, c ∈ txn → k ∉ written c) → slots txn k v = v.
Proof.
  revert v. induction txn as [|c txn IH]; intros v H; [done|].
  rewrite slots_cons, slot_ne by (apply H; by left). apply IH. intros c' Hc'. apply H. by right.
Qed.

(** Two stores that agree key by key are the same store. *)
Lemma exec_ext txn1 txn2 (d1 d2 : db) :
  (∀ k, slots txn1 k (d1 !! k) = slots txn2 k (d2 !! k)) →
  (exec txn1 d1).1 = (exec txn2 d2).1.
Proof. intros H. apply map_eq. intros k. by rewrite !exec_slots. Qed.

(** Every command does nothing more when it is run again. *)
Lemma act_idemp c v : act c (act c v) = act c v.
Proof.
  destruct c as [k0 m|k0 sc m|k0 x|k0 m|k0 ms|ks], v as [[x'|s|z]|]; cbn; try done.
  - f_equal. f_equal. by rewrite (assoc_L (∪)), (idemp_L (∪)).
  - f_equal. f_equal. by rewrite (idemp_L (∪)).
  - by rewrite insert_insert_eq.
  - by rewrite insert_singleton_eq.
  - unfold keep_set. case_decide; [done|]. cbn.
    rewrite difference_twice_L. by rewrite decide_False.
  - unfold keep_zset. case_decide; [done|]. cbn.
    replace (foldr delete (foldr delete z ms) ms) with (foldr delete z ms).
    + by rewrite decide_False.
    + apply map_eq. intros i. destruct (decide (i ∈ ms)).
      * by rewrite !foldr_delete_lookup_in.
      * by rewrite (foldr_delete_lookup_ne ms (foldr delete z ms)).
Qed.

(** When the commands that write a key are all one command, the
    transaction does to the key what that command does. *)
Lemma slots_same txn c k v :
  (∀ c', c' ∈ txn → k ∈ written c' → c' = c) →
  (∃ c', c' ∈ txn ∧ k ∈ written c') →
  slots txn k v = act c v.
Proof.
  revert v. induction txn as [|c0 txn IH]; intros v Hall [c' [Hin Hk]];
    [by apply elem_of_nil in Hin|].
  rewrite slots_cons.
  destruct (decide (Exists (fun c' => k ∈ written c') txn)) as [Hex|Hnex].
  - apply Exists_exists in Hex. rewrite IH.
    + unfold slot. case_decide as H0; [|done].
      rewrite (Hall c0) by (done || by left). apply act_idemp.
    + intros c1 H1. apply Hall. by right.
    + done.
  - rewrite slots_frame.
    + apply elem_of_cons in Hin as [->|Hin].
      * rewrite (Hall c0) in * by (done || by left). by apply slot_eq.
      * exfalso. apply Hnex, Exists_exists. eauto.
    + intros c1 H1 Hk1. apply Hnex, Exists_exists. eauto.
Qed.

Lemma exec_twice txn d :
  key_functional txn → (exec txn (exec txn d).1).1 = (exec txn d).1.
Proof.
  intros Hkf. apply map_eq. intros k. rewrite !exec_slots.
  destruct (decide (Exists (fun c => k ∈ written c) txn)) as [Hex|Hnex].
  - apply Exists_exists in Hex as (c & Hc & Hk).
    assert (Hall : ∀ c', c' ∈ txn → k ∈ written c' → c' = c)
      by (intros c' Hc' Hk'; by apply (Hkf c' c k)).
    rewrite !(slots_same txn c k) by eauto. apply act_idemp.
  - rewrite !slots_frame; [done|..]; intros c Hc Hk; apply Hnex, Exists_exists; eauto.
Qed.

(** When all the commands that write a key are one command of the
    transaction, the transaction does to the key what that command does. *)
Lemma slots_only txn c k v :
  Forall (fun c' => k ∉ written c' ∨ c' = c) txn → c ∈ txn → k ∈ written c →
  slots txn k v = act c v.
Proof.
  intros Hall Hc Hk. apply slots_same; [|eauto].
  intros c' Hc' Hk'. apply (proj1 (Forall_forall _ _) Hall) in Hc' as [?|?]; done.
Qed.

(** *** The store stays canonical *)

Lemma act_canonical c v :
  v ≠ Some (VSet ∅) → v ≠ Some (VZSet ∅) →
  act c v ≠ Some (VSet ∅) ∧ act c v ≠ Some (VZSet ∅).
Proof.
  intros H1 H2.
  destruct c as [k m|k sc m|k x|k m|k ms|ks], v as [[x'|s|z]|]; cbn;
    try (split; congruence).
  - split; [|congruence]. intros [= He].
    apply empty_union_L in He as [He _]. by apply non_empty_singleton_L in He.
  - split; [|congruence]. intros [= He]; by apply non_empty_singleton_L in He.
  - split; [congruence|]. intros [= He]; by apply insert_non_empty in He.
  - split; [congruence|]. intros [= He]; by apply (insert_non_empty (M:=gmap string)) in He.
  - unfold keep_set. case_decide; split; congruence.
  - unfold keep_zset. case_decide; split; congruence.
Qed.

Lemma run_canonical c d : canonical d → canonical (run c d).1.
Proof.
  intros Hd k. rewrite run_slot. unfold slot. destruct (Hd k) as [H1 H2].
  case_decide; [by apply act_canonical|done].
Qed.

Lemma exec_canonical txn : ∀ d, canonical d → canonical (exec txn d).1.
Proof.
  induction txn as [|c txn IH]; intros d Hd; [done|].
  rewrite exec_cons. by apply IH, run_canonical.
Qed.

Lemma empty_canonical : canonical ∅.
Proof. intros k. by rewrite lookup_empty. Qed.

(** *** Removals again *)

Lemma keep_set_settled s m :
  (keep_set (s ∖ {[m]}) = Some (VSet s)) ↔ ((m ∉ s) ∧ (s ≠ ∅)).
Proof.
  unfold keep_set. case_decide as He.
  - split; [done|]. intros [Hm Hs]. destruct Hs. apply leibniz_equiv.
    apply set_equiv. intros x. split; [|by intros ?%not_elem_of_empty].
    intros Hx. assert (x ∈ s ∖ {[m]}) as Hx'; [|by rewrite He in Hx'].
    apply elem_of_difference. split; [done|]. intros ->%elem_of_singleton. done.
  - split.
    + intros [= Hs]. split.
      * rewrite <- Hs. intros [_ Hm]%elem_of_difference. apply Hm. by apply elem_of_singleton.
      * by rewrite <- Hs.
    + intros [Hm Hs]. f_equal. f_equal. apply leibniz_equiv, set_equiv. intros x.
      rewrite elem_of_difference, elem_of_singleton. split; [tauto|].
      intros Hx. split; [done|]. by intros ->.
Qed.

Lemma keep_zset_settled (z : gmap string Q) ms :
  (keep_zset (foldr delete z ms) = Some (VZSet z))
  ↔ ((∀ m, m ∈ ms → z !! m = None) ∧ z ≠ ∅).
Proof.
  assert (Hsame : (∀ m, m ∈ ms → z !! m = None) → foldr delete z ms = z).
  { intros H. apply map_eq. intros i. destruct (decide (i ∈ ms)).
    - rewrite foldr_delete_lookup_in by done. symmetry. by apply H.
    - by apply foldr_delete_lookup_ne. }
  unfold keep_zset. case_decide as He.
  - split; [done|]. intros [Hm Hs]. destruct Hs. by rewrite <- He, Hsame.
  - split.
    + intros [= Hz]. split; [|by rewrite <- Hz].
      intros m Hm. rewrite <- Hz. by apply foldr_delete_lookup_in.
    + intros [Hm Hs]. by rewrite Hsame.
Qed.

(** What a removal has taken stays away under further removals. *)
Lemma settled_act c r v :
  removal c → removal r → settled c v → settled c (act r v).
Proof.
  unfold settled.
  destruct c as [| | |kc m|kc ms|ksc]; try done; intros _;
    destruct r as [| | |kr m'|kr ms'|ksr]; try done; intros _;
    destruct v as [[x|s|z]|]; cbn; try done.
  - intros [Hm Hs]%keep_set_settled.
    assert (Hk : keep_set (s ∖ {[m']}) = None
                 ∨ (keep_set (s ∖ {[m']}) = Some (VSet (s ∖ {[m']})) ∧ s ∖ {[m']} ≠ ∅))
      by (unfold keep_set; case_decide; auto).
    destruct Hk as [->|[-> Hne]]; [done|]. cbn. apply keep_set_settled. split; [|done].
    intros [? _]%elem_of_difference. done.
  - intros _. unfold keep_zset. by case_decide.
  - intros _. unfold keep_set. by case_decide.
  - intros [Hm Hs]%keep_zset_settled.
    assert (Hk : keep_zset (foldr delete z ms') = None
                 ∨ (keep_zset (foldr delete z ms') = Some (VZSet (foldr delete z ms'))
                    ∧ foldr delete z ms' ≠ ∅))
      by (unfold keep_zset; case_decide; auto).
    destruct Hk as [->|[-> Hne]]; [done|]. cbn. apply keep_zset_settled. split; [|done].
    intros m Hin. destruct (decide (m ∈ ms')).
    + by apply foldr_delete_lookup_in.
    + rewrite foldr_delete_lookup_ne by done. by apply Hm.
Qed.

Lemma settled_slots c txn k v :
  removal c → Forall removal txn → settled c v → settled c (slots txn k v).
Proof.
  intros Hc. revert v. induction txn as [|r txn IH]; intros v Hall Hv; [done|].
  apply Forall_cons in Hall as [Hr Hall]. rewrite slots_cons. apply IH; [done|].
  unfold slot. case_decide; [by apply settled_act|done].
Qed.

(** A removal that is part of a transaction of removals has nothing left
    to do once the transaction is through. *)
Lemma slot_after_removals c txn k v :
  Forall removal txn → c ∈ txn → slot c k (slots txn k v) = slots txn k v.
Proof.
  intros Hall Hc. unfold slot. case_decide as Hk; [|done].
  apply list_elem_of_split in Hc as (pre & post & ->).
  apply Forall_app in Hall as [_ Hall]. apply Forall_cons in Hall as [Hrc Hall].
  rewrite slots_app, slots_cons. apply (settled_slots c post k); [done..|].
  rewrite slot_eq by done. apply act_idemp.
Qed.

Lemma slots_after_removals txn0 txn k v :
  Forall removal txn → (∀ c, c ∈ txn0 → c ∈ txn) →
  slots txn0 k (slots txn k v) = slots txn k v.
Proof.
  intros Hall. induction txn0 as [|c txn0 IH]; intros Hsub; [done|].
  rewrite slots_cons, slot_after_removals; [|done|apply Hsub; by left].
  apply IH. intros c' Hc'. apply Hsub. by right.
Qed.

End SlotFacts.

(** ** Orderbook storage: more on [save] *)

Module SaveFacts.
Import OrderModel OrderbookStorage Redis RedisFacts Slot SlotFacts StorageFacts OrderEntries.

Lemma string_length_app (a b : string) :
  String.length (a +:+ b) = (String.length a + String.length b)%nat.
Proof.
  induction a as [|x a IH]; [done|].
  change (S (String.length (a +:+ b)) = S (String.length a + String.length b)).
  by rewrite IH.
Qed.

Lemma string_app_inj_r (a b c : string) : a +:+ c = b +:+ c → a = b.
Proof.
  revert b. induction a as [|x a IH]; intros [|y b] H.
  - done.
  - apply (f_equal String.length) in H.
    change (String.length c = S (String.length (b +:+ c))) in H.
    rewrite string_length_app in H. lia.
  - apply (f_equal String.length) in H.
    change (S (String.length (a +:+ c)) = String.length c) in H.
    rewrite string_length_app in H. lia.
  - change (String x (a +:+ c) = String y (b +:+ c)) in H.
    injection H as -> H. f_equal. by apply IH.
Qed.

Section Keys.
Variable chain : string.

Lemma getFullOrderKey_inj id id' :
  getFullOrderKey chain id = getFullOrderKey chain id' → id = id'.
Proof.
  intros H. key_unfold. repeat (apply String.app_inj in H).
  by apply string_app_inj_r in H.
Qed.

Lemma getOrderMatchesSet_inj id id' :
  getOrderMatchesSet chain id = getOrderMatchesSet chain id' → id = id'.
Proof. intros H. key_unfold. by repeat (apply String.app_inj in H). Qed.

Lemma getFullMatchKey_inj m m' :
  getFullMatchKey chain m = getFullMatchKey chain m' → m = m'.
Proof.
  intros H. key_unfold. repeat (apply String.app_inj in H).
  by apply string_app_inj_r in H.
Qed.

Lemma store_save_item item d l :
  store (save_item chain item (State d l)) = store (save_item chain item (State d [])).
Proof. apply store_save_item_logged. Qed.

(** [save_item], on the store alone. *)
Lemma store_save_cons item items st :
  store (save chain (item :: items) st)
    = store (save chain items (State (store (save_item chain item st)) [])).
Proof.
  unfold save. cbn [fold_left].
  destruct (save_item chain item st) as [d l]. apply store_save_logged.
Qed.

Lemma store_save_one item st :
  store (save chain [item] st) = store (save_item chain item st).
Proof. done. Qed.

Lemma save_item_canonical item st :
  canonical (store st) → canonical (store (save_item chain item st)).
Proof.
  intros Hd. unfold save_item.
  destruct (_getOrderItemSets _) as [[sets sc]|msg]; [|done].
  destruct (status item); cbn [store]; rewrite ?store_commit; try (by apply exec_canonical);
    destruct (smembers _ _) as [ms|err]; cbn [store]; try done;
    destruct (0 <? length ms)%nat; rewrite store_commit; by apply exec_canonical.
Qed.

Lemma save_canonical items : ∀ st,
  canonical (store st) → canonical (store (save chain items st)).
Proof.
  induction items as [|item items IH]; intros st Hd; [done|].
  unfold save in *. cbn [fold_left]. by apply IH, save_item_canonical.
Qed.

Lemma active_txn_key_functional item sets sc :
  (∀ k, k ∈ sets → scoped k) → key_functional (active_txn chain item sets sc).
Proof.
  intros Hsc c c' k Hc Hc' Hk Hk'. unfold active_txn in *.
  apply elem_of_app in Hc as [Hc|Hc]; apply elem_of_app in Hc' as [Hc'|Hc'];
    repeat (apply elem_of_cons in Hc as [->|Hc]);
    repeat (apply elem_of_cons in Hc' as [->|Hc']);
    try (by apply elem_of_nil in Hc); try (by apply elem_of_nil in Hc');
    try (apply list_elem_of_fmap in Hc as (s & -> & Hs));
    try (apply list_elem_of_fmap in Hc' as (s' & -> & Hs'));
    cbn in Hk, Hk';
    apply list_elem_of_singleton in Hk; apply list_elem_of_singleton in Hk'; subst k;
    try congruence; exfalso; revert Hk';
    first [ apply orders_not_active | apply orders_not_full | apply active_not_full
          | apply not_eq_sym, orders_not_active | apply not_eq_sym, orders_not_full
          | apply not_eq_sym, active_not_full
          | by apply scoped_not_orders, Hsc | by apply scoped_not_active, Hsc
          | by apply scoped_not_full, Hsc
          | by apply not_eq_sym, scoped_not_orders, Hsc
          | by apply not_eq_sym, scoped_not_active, Hsc
          | by apply not_eq_sym, scoped_not_full, Hsc ].
Qed.

End Keys.

(** *** Commands about one member leave the others alone *)

Lemma sismember_member_of k m d : sismember k m d = member_of (d !! k) m.
Proof. done. Qed.

Lemma zscore_score_of k m d : zscore k m d = score_of (d !! k) m.
Proof. done. Qed.

Lemma act_about_set c id id' v :
  about_set id c → id' ≠ id → member_of (act c v) id' = member_of v id'.
Proof.
  destruct c as [k m|k sc m|k x|k m|k ms|ks]; try done; cbn; intros -> Hne;
    destruct v as [[x|s|z]|]; cbn; try done.
  - f_equal. apply bool_decide_ext. rewrite elem_of_union, elem_of_singleton. tauto.
  - f_equal. rewrite bool_decide_eq_false. by intros ?%elem_of_singleton.
  - unfold keep_set. case_decide as He; cbn; f_equal.
    + symmetry. apply bool_decide_eq_false. intros Hin.
      assert (id' ∈ s ∖ {[id]}) as Hx; [|by rewrite He in Hx].
      apply elem_of_difference. split; [done|]. by intros ?%elem_of_singleton.
    + apply bool_decide_ext. rewrite elem_of_difference, elem_of_singleton. tauto.
Qed.

Lemma foldr_delete_single {V} (m : gmap string V) (i : string) :
  foldr delete m [i] = delete i m.
Proof. done. Qed.

Lemma act_about_zset c id id' v :
  about_zset id c → id' ≠ id → score_of (act c v) id' = score_of v id'.
Proof.
  destruct c as [k m|k sc m|k x|k m|k ms|ks]; try done; cbn; intros -> Hne;
    destruct v as [[x|s|z]|]; cbn; try done.
  - f_equal. by rewrite lookup_insert_ne.
  - f_equal. by rewrite lookup_singleton_ne.
  - unfold keep_zset. rewrite ?foldr_delete_single. case_decide as He; cbn; f_equal.
    + rewrite <- (lookup_delete_ne z id id') by done. by rewrite He.
    + by rewrite lookup_delete_ne.
Qed.

Lemma slots_about_set txn k id id' v :
  Forall (fun c => k ∉ written c ∨ about_set id c) txn → id' ≠ id →
  member_of (slots txn k v) id' = member_of v id'.
Proof.
  intros Hall Hne. revert v. induction Hall as [|c txn Hc Hall IH]; intros v; [done|].
  rewrite slots_cons, IH. unfold slot. case_decide; [|done].
  destruct Hc as [Hc|Hc]; [done|]. by apply (act_about_set c id).
Qed.

Lemma slots_about_zset txn k id id' v :
  Forall (fun c => k ∉ written c ∨ about_zset id c) txn → id' ≠ id →
  score_of (slots txn k v) id' = score_of v id'.
Proof.
  intros Hall Hne. revert v. induction Hall as [|c txn Hc Hall IH]; intros v; [done|].
  rewrite slots_cons, IH. unfold slot. case_decide; [|done].
  destruct Hc as [Hc|Hc]; [done|]. by apply (act_about_zset c id).
Qed.

(** Adding a member that was not there and removing it again gives the
    value back. *)
Lemma act_sadd_srem k k' id v :
  member_of v id = Ok false → v ≠ Some (VSet ∅) →
  act (SREM k id) (act (SADD k' id) v) = v.
Proof.
  destruct v as [[x|s|z]|]; cbn; try done.
  - intros [= Hid%bool_decide_eq_false] Hne.
    replace (({[id]} ∪ s) ∖ {[id]}) with (s ∖ {[id]}).
    + apply keep_set_settled. split; [done|congruence].
    + apply leibniz_equiv, set_equiv. intros x.
      rewrite !elem_of_difference, elem_of_union. tauto.
  - intros _ _. unfold keep_set. rewrite difference_diag_L. by rewrite decide_True.
Qed.

Lemma act_zadd_zrem k k' id sc v :
  score_of v id = Ok None → v ≠ Some (VZSet ∅) →
  act (ZREM k [id]) (act (ZADD k' sc id) v) = v.
Proof.
  destruct v as [[x|s|z]|]; cbn; try done.
  - intros [= Hid] Hne. rewrite delete_insert_id by done.
    unfold keep_zset. rewrite decide_False; [done|congruence].
  - intros _ _. rewrite delete_singleton_eq. unfold keep_zset. by rewrite decide_True.
Qed.

Lemma slots_map_zadd (sets : list string) sc id k v :
  slots (map (fun set => ZADD set sc id) sets) k v
    = if decide (k ∈ sets) then act (ZADD k sc id) v else v.
Proof.
  case_decide as Hk.
  - apply slots_only; [|apply list_elem_of_fmap; by exists k|by left].
    apply Forall_fmap, Forall_forall. intros x Hx. unfold compose. cbn.
    destruct (decide (x = k)) as [->|Hne]; [by right|left].
    apply single_not_written. congruence.
  - apply slots_frame. intros c (x & -> & Hx)%list_elem_of_fmap.
    apply single_not_written. congruence.
Qed.

Lemma slots_map_zrem (sets : list string) id k v :
  slots (map (fun set => ZREM set [id]) sets) k v
    = if decide (k ∈ sets) then act (ZREM k [id]) v else v.
Proof.
  case_decide as Hk.
  - apply slots_only; [|apply list_elem_of_fmap; by exists k|by left].
    apply Forall_fmap, Forall_forall. intros x Hx. unfold compose. cbn.
    destruct (decide (x = k)) as [->|Hne]; [by right|left].
    apply single_not_written. congruence.
  - apply slots_frame. intros c (x & -> & Hx)%list_elem_of_fmap.
    apply single_not_written. congruence.
Qed.

Lemma slots_untouched txn k v :
  Forall (fun c => k ∉ written c) txn → slots txn k v = v.
Proof. intros Hall. apply slots_frame. by apply Forall_forall. Qed.

End SaveFacts.

Module SaveProps.
Import OrderModel OrderbookStorage Redis RedisFacts Slot SlotFacts StorageFacts OrderEntries
  SaveFacts.

(** X1: saving the same entry twice in a row leaves the store as saving
    it once does, whatever the status of the entry and whatever the store
    holds. *)
Theorem save_twice (chain : string) (item : OrderData) (st : state) :
  store (save chain [item; item] st) = store (save chain [item] st).
Proof.
  rewrite store_save_cons, !store_save_one.
  destruct st as [d l]. rewrite (store_save_item chain item d l).
  set (st0 := State d []).
  destruct (_getOrderItemSets (new_Order item)) as [[sets sc]|msg] eqn:Hsets.
  2: { assert (Hthrow : ∀ st', store (save_item chain item st') = store st')
         by (intros st'; unfold save_item; by rewrite Hsets).
       by rewrite !Hthrow. }
  assert (status item = active ∨ status item ≠ active) as [Hact|Hact]
    by (destruct (status item); auto).
  - rewrite !(store_save_active chain item _ sets sc Hact Hsets). cbn [store].
    apply exec_twice, active_txn_key_functional.
    by apply (index_sets_scoped (new_Order item) sets sc).
  - destruct (smembers (getOrderMatchesSet chain (data_id item)) d) as [ms|err] eqn:Hm.
    2: { assert (Hsame : store (save_item chain item st0) = d).
         { unfold save_item. rewrite Hsets. subst st0.
           destruct (status item); [done|..]; cbn [store]; by rewrite Hm. }
         rewrite Hsame. exact Hsame. }
    pose proof (store_save_inactive chain item st0 sets sc ms Hact Hsets Hm) as H1.
    pose proof (save_inactive_cleanup chain item st0 sets sc ms Hact Hsets Hm) as (Hgone & _).
    cbv zeta in Hgone. rewrite H1 in *.
    rewrite (store_save_inactive chain item _ sets sc [] Hact Hsets).
    2: { cbn [store]. unfold smembers. by rewrite Hgone. }
    cbn [store]. apply map_eq. intros k. rewrite !exec_slots.
    apply slots_after_removals; [apply inactive_txn_removal|].
    intros c. unfold inactive_txn. cbn [length Nat.ltb Nat.leb].
    rewrite !elem_of_app. intros [Hc|[Hc|[Hc|Hc]]]; auto.
    by apply elem_of_nil in Hc.
Qed.

(** The commands of a transaction either miss the key or satisfy [P]:
    one case per command, settled by comparing keys. *)
Ltac writers Hscoped tac :=
  unfold active_txn, inactive_txn;
  repeat match goal with |- context [if ?b then _ else _] => destruct b end;
  rewrite ?Forall_app, ?Forall_cons, ?Forall_fmap; split_and?;
  try apply Forall_nil;
  try (apply Forall_forall; intros ? Hx; try (destruct (Hscoped _ Hx) as [? ->]));
  unfold compose; cbn [written];
  first [ by right
        | left; apply single_not_written; first [ key_neq | tac ]
        | left; intros (? & Hkey & _)%list_elem_of_fmap; revert Hkey; key_neq
        | apply single_not_written; first [ key_neq | tac ]
        | intros (? & Hkey & _)%list_elem_of_fmap; revert Hkey; key_neq
        | exact I ].

(** X2: saving an entry changes nothing of what the store holds about any
    other order: whether it is stored, whether it is active, its payload,
    and its place and score in every per-asset set. *)
Theorem save_keeps_other_orders (chain : string) (item : OrderData) (st : state)
    (id' : string) :
  id' ≠ data_id item →
  let d := store st in
  let d' := store (save_item chain item st) in
  has chain id' d' = has chain id' d
  ∧ zscore (activeOrdersOrderedSetKey chain) id' d'
      = zscore (activeOrdersOrderedSetKey chain) id' d
  ∧ get (getFullOrderKey chain id') d' = get (getFullOrderKey chain id') d
  ∧ ∀ k, scoped k → zscore k id' d' = zscore k id' d.
Proof.
  intros Hne d d'.
  assert (Hfull : getFullOrderKey chain id' ≠ getFullOrderKey chain (data_id item))
    by (intros H; by apply getFullOrderKey_inj in H).
  assert (Htxn : d' = d ∨ ∃ sets ms,
            (∀ k, k ∈ sets → scoped k)
            ∧ (d' = (exec (active_txn chain item sets (startPriceEth (order item))) d).1
               ∨ d' = (exec (inactive_txn chain item sets ms) d).1)).
  { subst d d'. destruct (_getOrderItemSets (new_Order item)) as [[sets sc]|msg] eqn:Hsets.
    2: { left. unfold save_item. by rewrite Hsets. }
    pose proof (index_sets_score _ _ _ Hsets) as Hsc. cbn in Hsc. subst sc.
    pose proof (index_sets_scoped _ _ _ Hsets) as Hscoped.
    assert (status item = active ∨ status item ≠ active) as [Hact|Hact]
      by (destruct (status item); auto).
    - right. exists sets, []. split; [done|]. left. by apply store_save_active.
    - destruct (smembers (getOrderMatchesSet chain (data_id item)) (store st))
        as [ms|err] eqn:Hm.
      + right. exists sets, ms. split; [done|]. right. by eapply store_save_inactive.
      + left. unfold save_item. rewrite Hsets.
        destruct (status item); [done|..]; cbn [store]; by rewrite Hm. }
  destruct Htxn as [->|(sets & ms & Hscoped & [->| ->])]; [done|..].
  - split_and!.
    + unfold has. rewrite !sismember_member_of, exec_slots.
      apply (slots_about_set _ _ (data_id item)); [|done]. writers Hscoped fail.
    + rewrite !zscore_score_of, exec_slots.
      apply (slots_about_zset _ _ (data_id item)); [|done]. writers Hscoped fail.
    + apply get_ext. rewrite exec_slots. apply slots_untouched.
      writers Hscoped ltac:(exact Hfull).
    + intros k [rest ->]. rewrite !zscore_score_of, exec_slots.
      apply (slots_about_zset _ _ (data_id item)); [|done]. writers Hscoped fail.
  - split_and!.
    + unfold has. rewrite !sismember_member_of, exec_slots.
      apply (slots_about_set _ _ (data_id item)); [|done]. writers Hscoped fail.
    + rewrite !zscore_score_of, exec_slots.
      apply (slots_about_zset _ _ (data_id item)); [|done]. writers Hscoped fail.
    + apply get_ext. rewrite exec_slots. apply slots_untouched.
      writers Hscoped ltac:(exact Hfull).
    + intros k [rest ->]. rewrite !zscore_score_of, exec_slots.
      apply (slots_about_zset _ _ (data_id item)); [|done]. writers Hscoped fail.
Qed.

(** X3: saving an active entry leaves the match bookkeeping alone: every
    order's match set, every full match, the by-gas-price set, and the
    executed set are what they were. *)
Theorem save_active_keeps_matches (chain : string) (item : OrderData) (st : state)
    (m : string) :
  status item = active →
  let d := store st in
  let d' := store (save_item chain item st) in
  d' !! getOrderMatchesSet chain m = d !! getOrderMatchesSet chain m
  ∧ d' !! getFullMatchKey chain m = d !! getFullMatchKey chain m
  ∧ d' !! matchesByGasPriceOrderedSetKey chain = d !! matchesByGasPriceOrderedSetKey chain
  ∧ d' !! executedOrdersOrderedSetKey chain = d !! executedOrdersOrderedSetKey chain.
Proof.
  intros Hact d d'. subst d d'.
  destruct (_getOrderItemSets (new_Order item)) as [[sets sc]|msg] eqn:Hsets.
  2: { unfold save_item. by rewrite Hsets. }
  pose proof (index_sets_scoped _ _ _ Hsets) as Hscoped.
  rewrite (store_save_active chain item st sets sc Hact Hsets).
  split_and!; rewrite exec_slots; apply slots_untouched; writers Hscoped fail.
Qed.

(** X4: an order of which the store holds nothing, saved as active and then
    saved again with another status, leaves a canonical store exactly as
    it was. *)
Theorem save_then_remove_restores (chain : string) (item : OrderData) (st : state)
    (sets : list string) (sc : Q) (s' : OrderStatus) :
  status item = active →
  s' ≠ active →
  _getOrderItemSets (new_Order item) = Ok (sets, sc) →
  canonical (store st) →
  unknown chain (data_id item) sets (store st) →
  store (save chain [item; with_status s' item] st) = store st.
Proof.
  intros Hact Hs' Hsets Hcan (Ho & Ha & Hf & Hz & Hm).
  pose proof (index_sets_scoped _ _ _ Hsets) as Hscoped.
  rewrite store_save_cons, store_save_one.
  rewrite (store_save_active chain item st sets sc Hact Hsets).
  set (d := store st) in *. set (id := data_id item) in *.
  assert (Hm1 : (exec (active_txn chain item sets sc) d).1 !! getOrderMatchesSet chain id
                = None).
  { rewrite exec_slots, slots_untouched; [done|]. subst id. writers Hscoped fail. }
  rewrite (store_save_inactive chain (with_status s' item) _ sets sc []); [|done|done|].
  2: { cbn [store data_id with_status]. unfold smembers. fold id. by rewrite Hm1. }
  cbn [store]. apply map_eq. intros k. rewrite !exec_slots.
  unfold inactive_txn. cbn [length Nat.ltb Nat.leb data_id with_status]. fold id.
  rewrite !slots_app. change (slots [] k ?v) with v.
  unfold active_txn. fold id. rewrite !slots_app.
  rewrite slots_map_zadd, slots_map_zrem.
  pose proof (Hcan k) as [Hne1 Hne2]. fold d in Hne1, Hne2.
  set (v := d !! k) in *. cbn [slots foldl].
  destruct (decide (k ∈ sets)) as [Hk|Hk].
  { specialize (Hz k Hk). rewrite zscore_score_of in Hz. fold v in Hz.
    destruct (Hscoped k Hk) as [rest Hrest].
    rewrite !(slot_ne (SADD _ _)), !(slot_ne (ZADD _ _ _)), !(slot_ne (SET _ _)),
      !(slot_ne (SREM _ _)), !(slot_ne (ZREM _ _)), !(slot_ne (DEL _))
      by (apply single_not_written; rewrite Hrest; subst id; key_neq).
    by apply act_zadd_zrem. }
  destruct (decide (k = storedOrdersSetKey chain)) as [Hk1|Hk1].
  { rewrite sismember_member_of in Ho. rewrite <- Hk1 in Ho. fold d v in Ho.
    rewrite !(slot_ne (ZADD _ _ _)), !(slot_ne (SET _ _)),
      !(slot_ne (ZREM _ _)), !(slot_ne (DEL _))
      by (apply single_not_written; rewrite Hk1; subst id; key_neq).
    rewrite !slot_eq by (rewrite Hk1; by left). by apply act_sadd_srem. }
  destruct (decide (k = activeOrdersOrderedSetKey chain)) as [Hk2|Hk2].
  { rewrite zscore_score_of in Ha. rewrite <- Hk2 in Ha. fold d v in Ha.
    rewrite !(slot_ne (SADD _ _)), !(slot_ne (SET _ _)),
      !(slot_ne (SREM _ _)), !(slot_ne (DEL _))
      by (apply single_not_written; rewrite Hk2; subst id; key_neq).
    rewrite !slot_eq by (rewrite Hk2; by left). by apply act_zadd_zrem. }
  destruct (decide (k = getFullOrderKey chain id)) as [Hk3|Hk3].
  { rewrite <- Hk3 in Hf. fold d v in Hf.
    rewrite !(slot_ne (SADD _ _)), !(slot_ne (ZADD _ _ _)),
      !(slot_ne (SREM _ _)), !(slot_ne (ZREM _ _)),
      !(slot_ne (DEL [getOrderMatchesSet _ _]))
      by (apply single_not_written; rewrite Hk3; subst id; key_neq).
    rewrite !slot_eq by (rewrite Hk3; by left). by rewrite Hf. }
  destruct (decide (k = getOrderMatchesSet chain id)) as [Hk4|Hk4].
  { rewrite <- Hk4 in Hm. fold d v in Hm.
    rewrite !(slot_ne (SADD _ _)), !(slot_ne (ZADD _ _ _)), !(slot_ne (SET _ _)),
      !(slot_ne (SREM _ _)), !(slot_ne (ZREM _ _)),
      !(slot_ne (DEL [getFullOrderKey _ _]))
      by (apply single_not_written; rewrite Hk4; subst id; key_neq).
    rewrite !slot_eq by (rewrite Hk4; by left). by rewrite Hm. }
  by rewrite !slot_ne by (by apply single_not_written).
Qed.

Lemma save_then_remove_restores_witness :
  let st := save Scenario.chain [Scenario.offer active] Scenario.empty in
  store (save Scenario.chain
           [Scenario.listing active; with_status cancelled (Scenario.listing active)] st)
    = store st
  ∧ has Scenario.chain "0xb" (store st) = Ok true.
Proof.
  split; [|reflexivity].
  apply (save_then_remove_restores Scenario.chain (Scenario.listing active)
           (save Scenario.chain [Scenario.offer active] Scenario.empty)
           [Scenario.token_listings; Scenario.collection_token_listings] (1 # 10)%Q
           cancelled).
  - reflexivity.
  - discriminate.
  - reflexivity.
  - apply save_canonical, empty_canonical.
  - unfold unknown. split_and!; try reflexivity.
    intros k Hk. repeat (apply elem_of_cons in Hk as [->|Hk]); try reflexivity.
    by apply elem_of_nil in Hk.
Defined.

Lemma save_keeps_other_orders_witness :
  let st := save Scenario.chain [Scenario.offer active] Scenario.empty in
  let d' := store (save_item Scenario.chain (Scenario.listing cancelled) st) in
  has Scenario.chain "0xb" d' = Ok true
  ∧ zscore Scenario.token_offers "0xb" d' = Ok (Some (1 # 10)%Q)
  ∧ get (getFullOrderKey Scenario.chain "0xb") d' = Ok (Some "{offer}").
Proof.
  cbv zeta.
  pose proof (save_keeps_other_orders Scenario.chain (Scenario.listing cancelled)
                (save Scenario.chain [Scenario.offer active] Scenario.empty) "0xb")
    as H.
  destruct H as (Hhas & _ & Hget & Hsets); [discriminate|].
  split; [rewrite Hhas; reflexivity|]. split.
  - rewrite (Hsets Scenario.token_offers); [reflexivity|]. eexists. reflexivity.
  - rewrite Hget. reflexivity.
Defined.

Lemma save_active_keeps_matches_witness :
  let d' := store (save_item Scenario.chain Scenario.offer_usdc Scenario.matched) in
  smembers (getOrderMatchesSet Scenario.chain "0xa") d' = Ok ["0xm"]
  ∧ zscore (matchesByGasPriceOrderedSetKey Scenario.chain) "0xm" d' = Ok (Some 0%Q).
Proof.
  cbv zeta.
  pose proof (save_active_keeps_matches Scenario.chain Scenario.offer_usdc Scenario.matched
                "0xa" eq_refl) as (Hset & _ & Hgas & _).
  split.
  - unfold smembers. rewrite Hset. reflexivity.
  - unfold zscore. rewrite Hgas. reflexivity.
Defined.

(** X5: when the key of the order's match set holds something that is not
    a set, saving the entry with a status other than active fails on
    reading the matches: nothing is written, so the order stays stored
    and indexed, and the failure is logged. *)
Theorem save_inactive_unreadable (chain : string) (item : OrderData) (st : state)
    (sets : list string) (sc : Q) (v : value) :
  status item ≠ active →
  _getOrderItemSets (new_Order item) = Ok (sets, sc) →
  store st !! getOrderMatchesSet chain (data_id item) = Some v →
  (∀ s, v ≠ VSet s) →
  save_item chain item st =
    State (store st)
      (logged st ++
         [ Logger.Entry Logger.lvl_info "orderbook-storage"
             ("Removing order " +:+ data_id item +:+ " from active orders");
           Logger.Entry Logger.lvl_error "orderbook-storage"
             ("Failed to save order event " +:+ data_id item +:+ " - "
                +:+ status_string (status item) +:+ " " +:+ "ReplyError: " +:+ WRONGTYPE) ])%list.
Proof.
  intros Hst Hsets Hv Hnot. unfold save_item. rewrite Hsets.
  assert (Hm : smembers (getOrderMatchesSet chain (data_id item)) (store st)
               = Throw WRONGTYPE).
  { unfold smembers. rewrite Hv. destruct v as [x|s|z]; [done| |done]. by destruct (Hnot s). }
  destruct (status item) eqn:Hs; [done|..]; cbn [store logged]; rewrite Hm;
    unfold save_failed, Logger.error, Logger.log; cbn [logged store];
    by rewrite <- app_assoc, Hs.
Qed.

Lemma save_inactive_unreadable_witness :
  store (save_item Scenario.chain (Scenario.listing cancelled) damaged) = store damaged
  ∧ has Scenario.chain "0xa" (store damaged) = Ok true
  ∧ length (logged (save_item Scenario.chain (Scenario.listing cancelled) damaged)) = 2%nat.
Proof.
  pose proof (save_inactive_unreadable Scenario.chain (Scenario.listing cancelled) damaged
                [Scenario.token_listings; Scenario.collection_token_listings] (1 # 10)%Q
                (VString "?")) as H.
  rewrite H; [split_and!; reflexivity|discriminate|reflexivity|reflexivity|discriminate].
Defined.

(** X6: saving an entry whose status is not active, when its index sets
    derive and its match set can be read, removes the order everywhere:
    its match set and payload are gone, it is neither stored nor active
    nor in any of its index sets; and for each match its set held, the
    full match is gone, the match is off the by-gas-price set, and the
    order's id is not in the set named after the match. *)
Theorem save_inactive_removes_order (chain : string) (item : OrderData) (st : state)
    (sets : list string) (sc : Q) (matches : list string) :
  status item ≠ active →
  _getOrderItemSets (new_Order item) = Ok (sets, sc) →
  smembers (getOrderMatchesSet chain (data_id item)) (store st) = Ok matches →
  let d' := store (save chain [item] st) in
  d' !! getOrderMatchesSet chain (data_id item) = None
  ∧ d' !! getFullOrderKey chain (data_id item) = None
  ∧ has chain (data_id item) d' ≠ Ok true
  ∧ (∀ q, zscore (activeOrdersOrderedSetKey chain) (data_id item) d' ≠ Ok (Some q))
  ∧ (∀ k, k ∈ sets → ∀ q, zscore k (data_id item) d' ≠ Ok (Some q))
  ∧ (∀ m, m ∈ matches →
       d' !! getFullMatchKey chain m = None
       ∧ (∀ q, zscore (matchesByGasPriceOrderedSetKey chain) m d' ≠ Ok (Some q))
       ∧ sismember (getOrderMatchesSet chain m) (data_id item) d' ≠ Ok true).
Proof.
  intros Hst Hsets Hm d'. subst d'. rewrite store_save_one.
  exact (save_inactive_cleanup chain item st sets sc matches Hst Hsets Hm).
Qed.

Lemma save_inactive_removes_order_witness :
  store (save Scenario.chain [Scenario.listing cancelled] Scenario.matched)
    !! getOrderMatchesSet Scenario.chain "0xa" = None.
Proof.
  assert (H1 : status (Scenario.listing cancelled) ≠ active) by discriminate.
  assert (H2 : _getOrderItemSets (new_Order (Scenario.listing cancelled))
               = Ok ([Scenario.token_listings; Scenario.collection_token_listings],
                     (1 # 10)%Q)) by reflexivity.
  assert (H3 : smembers (getOrderMatchesSet Scenario.chain
                           (data_id (Scenario.listing cancelled)))
                 (store Scenario.matched) = Ok ["0xm"]) by (vm_compute; reflexivity).
  pose proof (save_inactive_removes_order Scenario.chain _ _ _ _ _ H1 H2 H3) as [Hgone _].
  exact Hgone.
Defined.

End SaveProps.

(** ** The per-asset keys tell assets apart *)

Module KeyProps.
Import OrderModel OrderbookStorage KeyText.

Lemma split_at_colon (a a' r r' : string) :
  colon_free a = true → colon_free a' = true →
  a +:+ String ":"%char r = a' +:+ String ":"%char r' → a = a' ∧ r = r'.
Proof.
  revert a'. induction a as [|x a IH]; intros [|y a'] Ha Ha' H.
  - by injection H.
  - change (String ":"%char r = String y (a' +:+ String ":"%char r')) in H. injection H as <- _.
    by cbn in Ha'.
  - change (String x (a +:+ String ":"%char r) = String ":"%char r') in H. injection H as -> _.
    by cbn in Ha.
  - change (String x (a +:+ String ":"%char r) = String y (a' +:+ String ":"%char r')) in H.
    injection H as -> H. cbn in Ha, Ha'.
    apply andb_true_iff in Ha as [_ Ha]. apply andb_true_iff in Ha' as [_ Ha'].
    destruct (IH a' Ha Ha' H) as [-> ->]. done.
Qed.

Lemma split_side (a a' r r' : string) :
  colon_free a = true → colon_free a' = true →
  a +:+ ":side:" +:+ r = a' +:+ ":side:" +:+ r' → a = a' ∧ r = r'.
Proof.
  intros Ha Ha' H.
  change (a +:+ String ":"%char ("side:" +:+ r) = a' +:+ String ":"%char ("side:" +:+ r')) in H.
  apply split_at_colon in H as [-> H]; [|done..]. by apply String.app_inj in H.
Qed.

Lemma split_tokenId (a a' r r' : string) :
  colon_free a = true → colon_free a' = true →
  a +:+ ":tokenId:" +:+ r = a' +:+ ":tokenId:" +:+ r' → a = a' ∧ r = r'.
Proof.
  intros Ha Ha' H.
  change (a +:+ String ":"%char ("tokenId:" +:+ r) = a' +:+ String ":"%char ("tokenId:" +:+ r')) in H.
  apply split_at_colon in H as [-> H]; [|done..]. by apply String.app_inj in H.
Qed.

(** A text without ':' is not a text with ":tokenId:" in it. *)
Lemma no_tokenId (a a' r : string) :
  colon_free a = true → a ≠ a' +:+ ":tokenId:" +:+ r.
Proof.
  revert a. induction a' as [|y a' IH]; intros [|x a] Ha H; try done.
  - change (String x a = String ":"%char ("tokenId:" +:+ r)) in H. injection H as -> _.
    by cbn in Ha.
  - change (String x a = String y (a' +:+ ":tokenId:" +:+ r)) in H. injection H as -> H.
    cbn in Ha. apply andb_true_iff in Ha as [_ Ha]. by apply (IH a).
Qed.

(** Two per-asset keys are the same: either they cannot be, or their
    parts are the same. *)
Ltac same_key H Hc1 Hc2 Hl1 Hl2 :=
  key_unfold; cbv zeta in H;
  cbn [t_complication t_collection t_tokenId c_complication c_collection] in H;
  repeat (apply String.app_inj in H);
  first [ by (cbv [String.append] in H; discriminate H)
        | apply (split_side _ _ _ _ Hc1 Hc2) in H as [Hcomp H];
          repeat (apply String.app_inj in H);
          first [ by (cbv [String.append] in H; discriminate H)
                | apply (split_tokenId _ _ _ _ Hl1 Hl2) in H as [Hcol Htok]
                | idtac ] ].

(** X7: for orders whose complication and collection have no ':' in
    them, as addresses have not, two orders that share one of their index
    sets are on the same side, with the same complication, on the same
    collection; and two orders whose first index sets are the same are on
    the same asset: the same token, or both on the whole collection. *)
Theorem index_sets_tell_assets_apart (o1 o2 : Order) (sets1 sets2 : list string)
    (sc1 sc2 : Q) :
  plain o1 → plain o2 →
  _getOrderItemSets o1 = Ok (sets1, sc1) →
  _getOrderItemSets o2 = Ok (sets2, sc2) →
  (∀ k, k ∈ sets1 → k ∈ sets2 →
     side (params o1) = side (params o2)
     ∧ complication (params o1) = complication (params o2)
     ∧ item_collection (getOrderItem o1) = item_collection (getOrderItem o2))
  ∧ (head sets1 = head sets2 → getOrderItem o1 = getOrderItem o2).
Proof.
  unfold plain, _getOrderItemSets. intros [Hc1 Hl1] [Hc2 Hl2].
  destruct (side (params o1)) eqn:Hs1, (getOrderItem o1) as [col1 t1|col1] eqn:Hi1;
    destruct (side (params o2)) eqn:Hs2, (getOrderItem o2) as [col2 t2|col2] eqn:Hi2;
    try done; intros [= <- <-] [= <- <-]; cbn [item_collection] in *; split.
  all: try (intros k Hk1 Hk2;
            repeat (apply elem_of_cons in Hk1 as [Hk1|Hk1]);
            repeat (apply elem_of_cons in Hk2 as [Hk2|Hk2]);
            try (by apply elem_of_nil in Hk1); try (by apply elem_of_nil in Hk2);
            rewrite Hk1 in Hk2; clear Hk1;
            same_key Hk2 Hc1 Hc2 Hl1 Hl2; split_and!; congruence).
  all: cbn [head]; intros [= Hk]; same_key Hk Hc1 Hc2 Hl1 Hl2; congruence.
Qed.

Lemma index_sets_tell_assets_apart_witness :
  getOrderItem (new_Order (Scenario.offer active)) = getOrderItem (new_Order Scenario.offer_usdc).
Proof.
  pose proof (index_sets_tell_assets_apart
                (new_Order (Scenario.offer active)) (new_Order Scenario.offer_usdc)
                [Scenario.token_offers; Scenario.collection_token_offers]
                [Scenario.token_offers; Scenario.collection_token_offers]
                (1 # 10) (1 # 10)
                (conj eq_refl eq_refl) (conj eq_refl eq_refl) eq_refl eq_refl) as [_ Hsame].
  apply Hsame. reflexivity.
Defined.

End KeyProps.

(** ** The nonce provider: the record, run and close *)

Module NonceProps.
Import NonceProvider NonceFacts NonceRecord.
Local Open Scope Z_scope.







(** *** Calls under a held lease *)

Lemma increment_arms st n st' :
  _incrementNonce st = (Ok n, st') →
  _pendingSave st' = true ∧ _nonce st' = Some n
  ∧ _checkSignal st' = _checkSignal st ∧ _nonceLoaded st' = _nonceLoaded st.
Proof.
  unfold _incrementNonce, _saveNonce. destruct (_nonce st) as [m|]; [|done].
  destruct (_pendingSave (set_nonce _ st)) eqn:Hp; cbn; rewrite ?Hp; cbn;
    intros [= <- <-]; cbn; rewrite ?Hp; done.
Qed.

Lemma step_call e rt :
  is_call e →
  match (step e rt).1 with
  | Some (Returned n) =>
      _pendingSave (this (step e rt).2) = true ∧ _nonce (this (step e rt).2) = Some n
      ∧ _checkSignal (this (step e rt).2) = _checkSignal (this rt)
      ∧ _nonceLoaded (this (step e rt).2) = _nonceLoaded (this rt)
  | _ => this (step e rt).2 = this rt
  end.
Proof.
  destruct e; try done; intros _; cbn.
  - by destruct (getNonce_enter (this rt)).
  - destruct (awaiting rt) as [|k]; [done|]. unfold getNonce_resume.
    destruct (_nonceLoaded (this rt)) as [[| |]|] eqn:Hl; try done.
    destruct (_incrementNonce (this rt)) as [[n|msg] st'] eqn:E; cbn.
    + rewrite <- Hl. by apply increment_arms.
    + pose proof (incrementNonce_spec (this rt)) as (Hspec & _). rewrite E in Hspec.
      destruct (_nonce (this rt)); [by destruct Hspec|by injection Hspec].
Qed.

Lemma calls_leave_latest es : ∀ rt,
  Forall is_call es →
  match last (allocated es rt) with
  | Some n =>
      _pendingSave (this (run_events es rt)) = true
      ∧ _nonce (this (run_events es rt)) = Some n
      ∧ _checkSignal (this (run_events es rt)) = _checkSignal (this rt)
  | None => this (run_events es rt) = this rt
  end.
Proof.
  induction es as [|e es IH]; intros rt Hall; [done|].
  apply Forall_cons in Hall as [He Hall]. cbn [allocated run_events].
  pose proof (step_call e rt He) as Hstep. specialize (IH (step e rt).2 Hall).
  destruct (step e rt) as [[[n|msg|]|] rt1]; cbn in *.
  - destruct Hstep as (Hp & Hn & Hc & _). rewrite last_cons.
    destruct (last (allocated es rt1)) as [m|].
    + destruct IH as (? & ? & ?). split_and!; congruence.
    + rewrite IH. done.
  - rewrite <- Hstep. apply IH.
  - rewrite <- Hstep. apply IH.
  - rewrite <- Hstep. apply IH.
Qed.

Lemma save_timer_writes now st n :
  _checkSignal st = Ok tt → _nonce st = Some n →
  (save_timer now st).2 = Some {| write_nonce := n; write_updatedAt := now |}
  ∧ (nonce <$> _ref (saved now st)) = Some n
  ∧ (updatedAt <$> _ref (saved now st)) = Some now
  ∧ (∀ d, _ref st = Some d →
       (createdAt <$> _ref (saved now st)) = Some (createdAt d))
  ∧ _pendingSave (saved now st) = false
  ∧ _nonce (saved now st) = Some n.
Proof.
  unfold saved.
  destruct st as [c a x dl p m [[|]|] ps cl [|] r lg]; cbn; try done.
  intros _ ->. split_and!; try done; try (by intros d ->); by destruct r.
Qed.

(** *** Without the lease, no new write *)






(** A write the save timer asked for while the lease was held lands after
    the lease is lost: the callback checks the signal before its [await]
    only. *)
Example write_lands_after_lease_lost :
  let rt := run_events [call_getNonce; resume_getNonce; timer_fires 2000;
                        signal_aborted; write_settles 0 None] (idle running) in
  _signal (this rt) = Some true ∧ (nonce <$> _ref (this rt)) = Some 6.
Proof. split; vm_compute; reflexivity. Qed.

(** Two writes in flight that settle out of order leave the older nonce
    on record. *)
Example late_write_overwrites_newer :
  let rt := run_events [call_getNonce; resume_getNonce; timer_fires 2000;
                        call_getNonce; resume_getNonce; timer_fires 3000;
                        write_settles 1 None; write_settles 0 None] (idle running) in
  _nonce (this rt) = Some 7 ∧ (nonce <$> _ref (this rt)) = Some 6 ∧ writing rt = [].
Proof. split_and!; vm_compute; reflexivity. Qed.

(** X9: the first nonce a provider hands out after [run] took the lock
    and loaded the nonce is one above the greater of the persisted nonce
    and the watermark; one above the watermark when nothing was
    persisted. *)
Theorem first_nonce_after_run (c a x : string) (delay : Z)
    (doc : option NonceProviderDoc) (minNonce now : Z) :
  let st := run_loaded (loaded minNonce now)
              (run_lock true (new_NonceProvider c a x delay doc)) in
  (getNonce st).1 =
    Returned (match doc with
              | Some d => Z.max (nonce d) minNonce
              | None => minNonce
              end + 1)
  ∧ allocated [call_getNonce; resume_getNonce]
      {| this := st; awaiting := 0; writing := [] |}
      = [match doc with
         | Some d => Z.max (nonce d) minNonce
         | None => minNonce
         end + 1].
Proof.
  cbv zeta. destruct doc as [d|]; cbn.
  - destruct (Z.gtb_spec minNonce (nonce d)); cbn;
      (split; repeat f_equal; lia).
  - rewrite Z.gtb_ltb, Z.ltb_irrefl. done.
Qed.

(** X10: [close] does nothing before [run] has loaded the nonce, closing
    twice is closing once, and a provider that was closed stays closed
    when it is run again: its [getNonce] throws "Nonce provider closed"
    although it holds a new lease. *)
Theorem close_is_final (st : state) (r : load_result) :
  close (close st) = close st
  ∧ (_close st = false → close st = st)
  ∧ (_close st = true → _closed (close st) = true)
  ∧ (_closed st = true →
       (getNonce (run_loaded r (run_lock true st))).1 = Threw "Nonce provider closed").
Proof.
  split_and!.
  - unfold close. destruct (_close st) eqn:Hc, (_closed st) eqn:Hd; cbn; rewrite ?Hc, ?Hd; try done.
  - intros Hc. unfold close. by rewrite Hc.
  - intros Hc. unfold close. rewrite Hc. by destruct (_closed st) eqn:Hd.
  - intros Hd. unfold getNonce, getNonce_enter, _checkSignal.
    destruct r as [w now|err]; cbn; unfold _loadNonce; cbn;
      destruct (_ref st); cbn; by rewrite Hd.
Qed.

Lemma close_is_final_witness :
  close acquiring = acquiring
  ∧ _closed (close running) = true
  ∧ (getNonce (run_loaded (loaded 3 5000) (run_lock true (close running)))).1
      = Threw "Nonce provider closed".
Proof.
  pose proof (close_is_final acquiring (loaded 3 5000)) as (_ & Hnot & _).
  pose proof (close_is_final running (loaded 3 5000)) as (_ & _ & Hset & _).
  pose proof (close_is_final (close running) (loaded 3 5000)) as (_ & _ & _ & Hrun).
  split; [exact (Hnot eq_refl)|]. split; [exact (Hset eq_refl)|exact (Hrun eq_refl)].
Defined.

(** X11: under a held lease, however many nonces were handed out since
    the save timer was armed, the timer is pending after the first of
    them, and when it fires it asks for a write of the last nonce handed
    out with the time of the firing; when that write succeeds the
    document holds that nonce and that time, and keeps its creation
    time. *)
Theorem save_persists_latest (rt : runtime) (es : list event) (now n : Z) :
  _checkSignal (this rt) = Ok tt →
  Forall is_call es →
  last (allocated es rt) = Some n →
  let st := this (run_events es rt) in
  _pendingSave st = true
  ∧ _nonce st = Some n
  ∧ (save_timer now st).2 = Some {| write_nonce := n; write_updatedAt := now |}
  ∧ (∀ st', (nonce <$> _ref (save_settles
                               {| write_nonce := n; write_updatedAt := now |} None st'))
            = Some n)
  ∧ (nonce <$> _ref (saved now st)) = Some n
  ∧ (updatedAt <$> _ref (saved now st)) = Some now
  ∧ (∀ d, _ref st = Some d →
       (createdAt <$> _ref (saved now st)) = Some (createdAt d))
  ∧ flushed (saved now st).
Proof.
  intros Hlease Hcalls Hlast st. subst st.
  pose proof (calls_leave_latest es rt Hcalls) as H. rewrite Hlast in H.
  destruct H as (Hp & Hn & Hc). rewrite Hlease in Hc.
  destruct (save_timer_writes now _ n Hc Hn) as (Hask & Hw & Hu & Hcr & _ & Hn').
  split_and!; try done.
  - intros st'. cbn. by destruct (_ref st').
  - unfold flushed. rewrite Hn'. destruct (_ref (saved now _)); [|done].
    cbn in Hw. congruence.
Qed.

Lemma save_persists_latest_witness :
  let es := [call_getNonce; resume_getNonce; call_getNonce; call_getNonce;
             resume_getNonce; resume_getNonce] in
  let st := this (run_events es (idle running)) in
  allocated es (idle running) = [6; 7; 8]
  ∧ (nonce <$> _ref st) = Some 5
  ∧ (nonce <$> _ref (saved 2000 st)) = Some 8
  ∧ (createdAt <$> _ref (saved 2000 st)) = Some (Some 800).
Proof.
  cbv zeta.
  pose proof (save_persists_latest (idle running)
                [call_getNonce; resume_getNonce; call_getNonce; call_getNonce;
                 resume_getNonce; resume_getNonce] 2000 8 eq_refl) as H.
  destruct H as (_ & _ & _ & _ & Hw & _ & Hc & _).
  - repeat constructor.
  - reflexivity.
  - split; [reflexivity|]. split; [reflexivity|]. split; [exact Hw|].
    exact (Hc {| chainId := Some "1"; matchExecutorAddress := Some "0xacc";
                 exchangeAddress := Some "0xexch";
                 nonce := 5; updatedAt := 900; createdAt := Some 800 |} eq_refl).
Defined.



(** X13: a provider that takes over on the document another one left
    behind, with a watermark not above the nonce the other had in memory,
    hands out first a nonce above the one on record and at most one above
    the other's nonce in memory: exactly one above it when the document
    was flushed, and a nonce the other had already handed out when the
    save was still pending. *)
Theorem successor_first_nonce (st : state) (d : NonceProviderDoc) (n minNonce now : Z) :
  behind st →
  _ref st = Some d →
  _nonce st = Some n →
  minNonce <= n →
  ∃ f, (getNonce (successor st minNonce now)).1 = Returned f
       ∧ f = Z.max (nonce d) minNonce + 1
       ∧ nonce d + 1 <= f <= n + 1
       ∧ (flushed st → f = n + 1).
Proof.
  unfold behind, flushed, successor. intros Hb Hr Hn Hw. rewrite Hr, Hn in *.
  exists (Z.max (nonce d) minNonce + 1). split.
  { cbn. destruct (Z.gtb_spec minNonce (nonce d)); cbn; repeat f_equal; lia. }
  split; [done|]. split; lia.
Qed.

Lemma successor_first_nonce_witness :
  let es := [call_getNonce; resume_getNonce; call_getNonce; resume_getNonce] in
  let crashed := this (run_events es (idle running)) in
  allocated es (idle running) = [6; 7]
  ∧ (getNonce (successor crashed 3 5000)).1 = Returned 6
  ∧ (getNonce (successor (saved 2000 crashed) 3 5000)).1 = Returned 8.
Proof.
  cbv zeta. split; [reflexivity|].
  set (crashed := this (run_events _ (idle running))).
  destruct (successor_first_nonce crashed
              {| chainId := Some "1"; matchExecutorAddress := Some "0xacc";
                 exchangeAddress := Some "0xexch";
                 nonce := 5; updatedAt := 900; createdAt := Some 800 |} 7 3 5000)
    as (f & Hf & -> & _); [vm_compute; discriminate|reflexivity|reflexivity|lia|].
  destruct (successor_first_nonce (saved 2000 crashed)
              {| chainId := Some "1"; matchExecutorAddress := Some "0xacc";
                 exchangeAddress := Some "0xexch";
                 nonce := 7; updatedAt := 2000; createdAt := Some 800 |} 7 3 5000)
    as (f' & Hf' & -> & _); [vm_compute; discriminate|reflexivity|reflexivity|lia|].
  split; [exact Hf|exact Hf'].
Defined.

End NonceProps.

(** ** Network configuration: what it needs and what it returns *)

Module ConfigProps.
Import Config ConfigNeeds.

Lemma getEnvVariable_required e k :
  getEnvVariable e k true =
    match e !! k with
    | Some v => Ok v
    | None => Throw ("Missing required environment variable " +:+ k)
    end.
Proof. unfold getEnvVariable. by destruct (e !! k). Qed.

Lemma substring_app_start (sub post : string) :
  String.substring 0 (String.length sub) (sub +:+ post) = sub.
Proof.
  induction sub as [|y sub IH]; [by destruct post|].
  change (String y (String.substring 0 (String.length sub) (sub +:+ post)) = String y sub).
  by rewrite IH.
Qed.

Lemma substring_app_mid (pre sub post : string) :
  String.substring (String.length pre) (String.length sub) (pre +:+ sub +:+ post) = sub.
Proof.
  induction pre as [|x pre IH]; [exact (substring_app_start sub post)|exact IH].
Qed.

Lemma includes_occurs sub s : sub ≠ "" → includes sub s = true ↔ occurs sub s.
Proof.
  intros Hne. unfold includes, occurs. destruct (String.index 0 sub s) as [m|] eqn:E.
  - split; [|done]. intros _. exists m. by apply (String.index_correct1 0).
  - split; [done|]. intros [m Hm]. exfalso.
    apply (String.index_correct3 0 m sub s E Hne); [lia|done].
Qed.

Lemma occurs_app pre sub post : occurs sub (pre +:+ sub +:+ post).
Proof. exists (String.length pre). apply substring_app_mid. Qed.

Ltac stops :=
  split;
  [ by intros (? & ? & ?)
  | intros (? & ? & ? & ? & ? & ? & ? & ? & ? & ? & [? ?] & ? & ?);
    repeat match goal with
           | H : if ?b then _ else _ |- _ => destruct b
           | H : _ ∧ _ |- _ => destruct H
           | H : ∃ _, _ |- _ => destruct H
           end;
    simplify_eq; congruence ].

(** X14: [getNetworkConfig] returns a configuration exactly when the four
    common variables are set, both providers, the exchange address and the
    initiator's wallet go through, and, with forking, the http url
    contains "127.0.0.1" and the node reports a balance, whatever it is,
    or, without forking, the flashbots signer key is set, makes a wallet,
    and the flashbots provider is created.  The signer key is not read
    with forking. *)
Theorem getNetworkConfig_returns_iff (forking : bool) (lib : Libraries)
    (e : env) (chain : string) :
  (∃ cfg l, getNetworkConfig forking lib e chain = Ok (cfg, l))
  ↔ sufficient forking lib e chain.
Proof.
  unfold sufficient, getNetworkConfig, construct, mbind, result_bind.
  rewrite !getEnvVariable_required.
  destruct (e !! "WEBSOCKET_PROVIDER_URL") as [ws|] eqn:E1; [|stops].
  destruct (e !! "HTTP_PROVIDER_URL") as [url|] eqn:E2; [|stops].
  destruct (JsonRpcProvider_error lib url chain) eqn:E3; [stops|].
  destruct (WebSocketProvider_error lib ws chain) eqn:E4; [stops|].
  destruct (getExchangeAddress lib chain) as [xa|] eqn:E5; [|stops].
  destruct (e !! "INITIATOR_KEY") as [key|] eqn:E6; [|stops].
  destruct (Wallet_error lib key) eqn:E7; [stops|].
  destruct (e !! "MATCH_EXECUTOR_ADDRESS") as [exe|] eqn:E8; [|stops].
  destruct forking.
  - destruct (includes "127.0.0.1" url) eqn:Hinc; cbn [negb].
    + apply includes_occurs in Hinc; [|done].
      destruct (getBalance lib _ _) as [b|] eqn:E9; [|stops].
      split; [|eauto]. intros _. exists ws, url, key, exe. split_and!; eauto.
    + split; [by intros (? & ? & ?)|].
      intros (ws' & url' & key' & exe' & _ & [= <-] & _ & _ & _ & _ & _ & _ & Hocc & _).
      apply includes_occurs in Hocc; [congruence|done].
  - destruct (e !! "FLASHBOTS_AUTH_SIGNER_KEY") as [fk|] eqn:E9; [|stops].
    destruct (Wallet_error lib fk) eqn:E10; [stops|].
    destruct (FlashbotsBundleProvider_error lib _ _ _) eqn:E11; [stops|].
    split; [|eauto]. intros _. exists ws, url, key, exe. split_and!; eauto.
Qed.

Lemma getNetworkConfig_returns_iff_witness :
  (∃ cfg l, getNetworkConfig true (answering 0)
              (fork_env "http://127.0.0.1:8545" key_1) "1" = Ok (cfg, l))
  ∧ ¬ (∃ cfg l, getNetworkConfig false (answering 0)
                  (fork_env "http://127.0.0.1:8545" key_1) "1" = Ok (cfg, l))
  ∧ ¬ (∃ cfg l, getNetworkConfig true (answering 0)
                  (fork_env "http://127.0.0.1:8545" "0x01") "1" = Ok (cfg, l)).
Proof.
  split_and!.
  - apply getNetworkConfig_returns_iff.
    exists "ws://127.0.0.1:8545", "http://127.0.0.1:8545", key_1, "0xexec".
    split_and!; try reflexivity; try (by eexists).
    all: first [ exists 7%nat; reflexivity
               | split; [exists 7%nat; reflexivity|by eexists] ].
  - intros H. apply getNetworkConfig_returns_iff in H
      as (? & ? & ? & ? & _ & _ & _ & _ & _ & _ & _ & _ & ? & H & _).
    discriminate H.
  - intros H. apply getNetworkConfig_returns_iff in H
      as (? & ? & key & ? & _ & _ & Hkey & _ & _ & _ & _ & Hw & _).
    vm_compute in Hkey. injection Hkey as <-. discriminate Hw.
Defined.

(** X15: with forking, once the variables are read, the providers made
    and the exchange address found, the steps come in this order: a key
    the wallet refuses ends the call with the wallet's error, whatever
    the url; then the loopback check, a search for the text "127.0.0.1",
    refuses any url without it with "HTTP_PROVIDER_URL must be localhost
    to use forking"; then the balance is asked for, and its failure is the
    call's; otherwise the configuration is returned with the url as
    given, and an error is logged exactly when the balance is 0. *)
Theorem forking_accepts_any_url_with_loopback_text (lib : Libraries) (e : env)
    (chain ws url key exe xa : string) :
  e !! "WEBSOCKET_PROVIDER_URL" = Some ws →
  e !! "HTTP_PROVIDER_URL" = Some url →
  e !! "INITIATOR_KEY" = Some key →
  e !! "MATCH_EXECUTOR_ADDRESS" = Some exe →
  JsonRpcProvider_error lib url chain = None →
  WebSocketProvider_error lib ws chain = None →
  getExchangeAddress lib chain = Ok xa →
  let out := getNetworkConfig true lib e chain in
  let balance := getBalance lib {| http_url := url; http_network := chain |}
                   {| privateKey := key |} in
  (∀ msg, Wallet_error lib key = Some msg → out = Throw msg)
  ∧ (Wallet_error lib key = None →
       (¬ occurs "127.0.0.1" url →
          out = Throw "HTTP_PROVIDER_URL must be localhost to use forking")
       ∧ ((∃ pre post, url = pre +:+ "127.0.0.1" +:+ post) →
            (∀ msg, balance = Throw msg → out = Throw msg)
            ∧ (∀ b, balance = Ok b →
                 ∃ cfg l, out = Ok (cfg, l)
                          ∧ http_url (httpProvider cfg) = url
                          ∧ (l ≠ [] ↔ b = 0%Z)))).
Proof.
  intros Hws Hurl Hkey Hexe Hhttp Hsock Hx out balance. subst out balance.
  unfold getNetworkConfig, construct, mbind, result_bind.
  rewrite !getEnvVariable_required, Hws, Hurl, Hhttp, Hsock, Hx, Hkey, Hexe.
  split.
  - by intros msg ->.
  - intros ->. split.
    + intros Hno. destruct (includes "127.0.0.1" url) eqn:Hinc; [|done].
      apply includes_occurs in Hinc; done.
    + intros (pre & post & ->).
      rewrite (proj2 (includes_occurs "127.0.0.1" _ ltac:(done)) (occurs_app _ _ _)).
      cbn [negb]. split.
      * by intros msg ->.
      * intros b ->. eexists _, _. split; [reflexivity|]. split; [reflexivity|].
        destruct (Z.eqb_spec b 0); [by split|]. split; [done|by intros ?].
Qed.

Lemma forking_accepts_any_url_with_loopback_text_witness :
  (∃ cfg l, getNetworkConfig true (answering 0)
              (fork_env "https://node.example/?id=127.0.0.1" key_1) "1" = Ok (cfg, l)
            ∧ http_url (httpProvider cfg) = "https://node.example/?id=127.0.0.1"
            ∧ l ≠ [])
  ∧ getNetworkConfig true (answering 0) (fork_env "http://localhost:8545" key_1) "1"
      = Throw "HTTP_PROVIDER_URL must be localhost to use forking"
  ∧ getNetworkConfig true (answering 0) (fork_env "http://localhost:8545" "0x01") "1"
      = Throw "invalid private key".
Proof.
  split_and!.
  - destruct (forking_accepts_any_url_with_loopback_text (answering 0)
                (fork_env "https://node.example/?id=127.0.0.1" key_1) "1"
                "ws://127.0.0.1:8545" "https://node.example/?id=127.0.0.1" key_1
                "0xexec" "0xexchange" eq_refl eq_refl eq_refl eq_refl eq_refl eq_refl
                eq_refl) as [_ Hok].
    destruct (Hok eq_refl) as [_ Hurl].
    destruct Hurl as [_ Hbal]; [by exists "https://node.example/?id=", ""|].
    destruct (Hbal 0%Z eq_refl) as (cfg & l & Hout & Hhttp & Hlog).
    exists cfg, l. split_and!; [exact Hout|exact Hhttp|by apply Hlog].
  - vm_compute. reflexivity.
  - destruct (forking_accepts_any_url_with_loopback_text (answering 0)
                (fork_env "http://localhost:8545" "0x01") "1"
                "ws://127.0.0.1:8545" "http://localhost:8545" "0x01"
                "0xexec" "0xexchange" eq_refl eq_refl eq_refl eq_refl eq_refl eq_refl
                eq_refl) as [Hbad _].
    apply Hbad. reflexivity.
Defined.

End ConfigProps.

Module RouteProps.
Import Routes.
Local Open Scope Z_scope.

Lemma lower_lower (c : Ascii.ascii) : lower (lower c) = lower c.
Proof.
  destruct c as [[] [] [] [] [] [] [] []]; reflexivity.
Qed.

Lemma toLowerCase_idemp (s : string) : toLowerCase (toLowerCase s) = toLowerCase s.
Proof.
  induction s as [|c s IH]; cbn; [reflexivity|].
  by rewrite lower_lower, IH.
Qed.

Section Handlers.
Variables Order OrderParams Health ExecutionStatus : Type.
Variable isAddress : string → bool.
Variable isHexString : string → bool.
Variable matchingEngine_count orderRelay_count : string → Z.
Variable matchingEngine_jobCounts orderRelay_jobCounts : string → JobCounts.
Variable matchingEngine_health orderRelay_health : string → Health.
Variable getExecutionStatus : string → ExecutionStatus.
Variable getStatus : string → string.
Variable getOrder : string → option Order.
Variable getOrderCollections : Order → list string.
Variable getOrderParams : Order → OrderParams.
Variable now : Z.

Local Abbreviation put_order' :=
  (put_order Order OrderParams Health ExecutionStatus isHexString getStatus getOrder
     getOrderCollections getOrderParams now).
Local Abbreviation post_orders' :=
  (post_orders OrderParams Health ExecutionStatus isHexString getExecutionStatus).
Local Abbreviation get_collection' :=
  (get_collection OrderParams Health ExecutionStatus isAddress
     matchingEngine_count orderRelay_count matchingEngine_jobCounts orderRelay_jobCounts
     matchingEngine_health orderRelay_health).


(** X17: an active, stored order that names no collection at all is
    refused by PUT /matching/order/:order with the reason
    [order has multiple collections], and an error is logged. *)
Theorem put_order_without_collection (params : jsvalue) (o : Order) :
  isHexString (string_param "order" params) = true →
  getStatus (string_param "order" params) = "active" →
  getOrder (string_param "order" params) = Some o →
  getOrderCollections o = [] →
  put_order' params
  = (Ok (Triggered Health ExecutionStatus false (Some "order has multiple collections")),
     [Logged (Logger.Entry Logger.lvl_error "PUT /matching/order/:order"
                ("Order " +:+ string_param "order" params +:+ " has multiple collections"))]).
Proof.
  intros Hh Hs Ho Hc. unfold put_order.
  rewrite Hh, Hs, Ho, Hc. reflexivity.
Qed.





End Handlers.

Lemma put_order_without_collection_witness :
  put_order unit unit unit unit (String.prefix "0x") (λ _, "active") (λ _, Some tt)
    (λ _, []) (λ _, tt) 1700000000000 (JObject [("order", JString "0xa")])
  = (Ok (Triggered unit unit false (Some "order has multiple collections")),
     [Logged (Logger.Entry Logger.lvl_error "PUT /matching/order/:order"
                "Order 0xa has multiple collections")]).
Proof.
  apply (put_order_without_collection unit unit unit unit (String.prefix "0x")
           (λ _, "active") (λ _, Some tt) (λ _, []) (λ _, tt) 1700000000000
           (JObject [("order", JString "0xa")]) tt); reflexivity.
Defined.


(** X20: with [readonly] set, only the two GET routes and the POST route
    are registered, and no request to any of them starts a collection or
    adds a job; without it, the same three routes answer the same way and
    the two PUT routes are added. *)
Theorem readonly_routes_never_mutate
  (Order OrderParams Health ExecutionStatus : Type)
  (isAddress isHexString : string → bool)
  (matchingEngine_count orderRelay_count : string → Z)
  (matchingEngine_jobCounts orderRelay_jobCounts : string → JobCounts)
  (matchingEngine_health orderRelay_health : string → Health)
  (startCollection_error : string → option string)
  (getExecutionStatus : string → ExecutionStatus)
  (getStatus : string → string)
  (getOrder : string → option Order)
  (getOrderCollections : Order → list string)
  (getOrderParams : Order → OrderParams)
  (now : Z) :
  let routes :=
    register Order OrderParams Health ExecutionStatus isAddress isHexString
      matchingEngine_count orderRelay_count matchingEngine_jobCounts orderRelay_jobCounts
      matchingEngine_health orderRelay_health startCollection_error getExecutionStatus
      getStatus getOrder getOrderCollections getOrderParams now in
  map (λ r, (r.1.1, r.1.2)) (routes true)
  = [ (GET, "/matching/collection/:collection");
      (GET, "/matching/order/:order");
      (POST, "/matching/orders") ]
  ∧ (∀ r request e, r ∈ routes true → e ∈ snd (r.2 request) → ¬ mutates OrderParams e)
  ∧ (∀ r, r ∈ routes true → r ∈ routes false)
  ∧ (∀ r, r ∈ routes false → r.1.1 = PUT ∨ r ∈ routes true).
Proof.
  intros routes; subst routes; unfold register; cbn [negb app].
  split_and!.
  - reflexivity.
  - intros r request e Hr He.
    repeat (apply elem_of_cons in Hr as [->|Hr]); [| | |by apply elem_of_nil in Hr];
      cbn [snd] in He.
    + unfold get_collection in He.
      destruct (negb _); cbn [snd] in He; [by apply elem_of_nil in He|].
      repeat (apply elem_of_cons in He as [->|He]); [exact (λ H, H)..|by apply elem_of_nil in He].
    + unfold get_order in He.
      destruct (negb _); cbn [snd] in He; by apply elem_of_nil in He.
    + unfold post_orders in He.
      destruct (forallb _ _); cbn [snd] in He; by apply elem_of_nil in He.
  - intros r Hr.
    repeat (apply elem_of_cons in Hr as [->|Hr]); [| | |by apply elem_of_nil in Hr];
      set_solver.
  - intros r Hr.
    repeat (apply elem_of_cons in Hr as [->|Hr]); [| | | | |by apply elem_of_nil in Hr];
      cbn; first [by left | right; set_solver].
Qed.

(** X21: PUT /matching/collection/:collection answers before the
    collection has started: for a valid address the reply is [ok] whether
    starting succeeds or fails; a failure is only logged. *)
Theorem put_collection_answers_ok
  (OrderParams Health ExecutionStatus : Type) (isAddress : string → bool)
  (startCollection_error : string → option string) (params : jsvalue) :
  isAddress (string_param "collection" params) = true →
  let out := put_collection OrderParams Health ExecutionStatus isAddress
               startCollection_error params in
  let collection := toLowerCase (string_param "collection" params) in
  fst out = Ok (StatusOk Health ExecutionStatus)
  ∧ head (snd out) = Some (Started collection)
  ∧ (startCollection_error collection = None → snd out = [Started collection])
  ∧ (∀ err, startCollection_error collection = Some err →
       ∃ entry, snd out = [Started collection; Logged entry]
                ∧ Logger.lvl entry = Logger.lvl_error).
Proof.
  intros Ha out collection; subst out collection. unfold put_collection.
  rewrite Ha; cbn [negb fst snd].
  split_and!; [reflexivity..| |].
  - intros ->. reflexivity.
  - intros err ->. eexists. split; reflexivity.
Qed.

Lemma put_collection_answers_ok_witness :
  fst (put_collection unit unit unit (λ _, true) (λ _, Some "{}")
         (JObject [("collection", JString "0xAB")]))
  = Ok (StatusOk unit unit).
Proof.
  apply (put_collection_answers_ok unit unit unit (λ _, true) (λ _, Some "{}")
           (JObject [("collection", JString "0xAB")])); reflexivity.
Defined.

End RouteProps.
